(** * Vector control of synchronous machine drives: a shallow embedding

    Embedding of [motulator/control/sm/_vector.py]: the current reference
    generator ([CurrentReference]), the flux and position observer
    ([Observer]) and the main control loop ([VectorCtrl.__call__]).

    Numbers.  Python and NumPy floats are idealised as real numbers: rounding
    and overflow are not modelled.  The two places where the source can leave
    the reals are kept explicit:
    - [np.sqrt] of a negative number is [nan], and [np.inf] is passed to a
      lookup table, so looked-up arguments and square roots live in [xfloat];
    - a division whose divisor is a variable raises [ZeroDivisionError] when
      the divisor is zero (the behaviour of Python floats), and using a
      function where a number is expected raises [TypeError], reading an
      attribute of [None] raises [AttributeError]; methods that can raise
      return a [result]. *)

From Stdlib Require Import Reals Lra Lia List ZArith Bool.
Import ListNotations.

Open Scope R_scope.

(** ** Exceptions *)

Inductive exn : Set :=
| ZeroDivisionError
| TypeError
| AttributeError.

Inductive result (A : Type) : Type :=
| Ok (a : A)
| Raise (e : exn).

Arguments Ok {A} a.
Arguments Raise {A} e.

Definition bind {A B : Type} (m : result A) (f : A -> result B) : result B :=
  match m with
  | Ok a => f a
  | Raise e => Raise e
  end.

Notation "x <- m ;; k" := (bind m (fun x => k))
  (at level 61, m at next level, right associativity).

Definition returns {A : Type} (m : result A) : Prop := exists a, m = Ok a.

(** ** Floats that may be infinite or not a number *)

Inductive xfloat : Type :=
| Num (r : R)
| Inf
| NaN.

(** [a / b] for a divisor that is a variable of the source. *)
Definition fdiv (a b : R) : result R :=
  if Req_dec_T b 0 then Raise ZeroDivisionError else Ok (a / b).

Definition np_abs (x : R) : R := Rabs x.

Definition np_sign (x : R) : R :=
  if Rlt_dec x 0 then -1 else if Rlt_dec 0 x then 1 else 0.

(** [np.sqrt]: not a number below zero. *)
Definition np_sqrt (x : R) : xfloat :=
  if Rlt_dec x 0 then NaN else Num (sqrt x).

(** [np.minimum]: a [nan] operand wins. *)
Definition np_minimum (a b : xfloat) : xfloat :=
  match a, b with
  | NaN, _ | _, NaN => NaN
  | Num x, Num y => Num (Rmin x y)
  | Num x, Inf => Num x
  | Inf, Num y => Num y
  | Inf, Inf => Inf
  end.

(** [np.min] of a list (the source only applies it to a two-element list;
    the empty list, on which NumPy raises, is sent to [NaN]). *)
Definition np_min (l : list xfloat) : xfloat :=
  match l with
  | [] => NaN
  | x :: r => fold_left np_minimum r x
  end.

(** [a > b] for a float [b]: every comparison with [nan] is [False]. *)
Definition gt_xfloat (a : R) (b : xfloat) : bool :=
  match b with
  | Num r => if Rgt_dec a r then true else false
  | Inf => false
  | NaN => false
  end.

(** [np.clip(x, lo, hi)] is [minimum(maximum(x, lo), hi)]. *)
Definition np_clip (x lo hi : R) : R := Rmin (Rmax x lo) hi.

(** [np.mod(x, y)] for [y <> 0]: the remainder of the floored division.
    Over the reals it lies in [0, y) for a positive [y].  In floating point
    the remainder of a tiny negative [x] rounds to [y] itself, so the upper
    end is reached by the program: a range read off this definition is
    stated with that end closed. *)
Definition np_mod (x y : R) : R := x - IZR (Zfloor (x / y)) * y.

(** ** Complex numbers *)

Record C : Type := mkC { re : R; im : R }.

Definition RtoC (x : R) : C := mkC x 0.
Coercion RtoC : R >-> C.

(** [1j] *)
Definition Ci : C := mkC 0 1.

Definition Cadd (a b : C) : C := mkC (re a + re b) (im a + im b).
Definition Csub (a b : C) : C := mkC (re a - re b) (im a - im b).
Definition Cmul (a b : C) : C :=
  mkC (re a * re b - im a * im b) (re a * im b + im a * re b).
Definition Cconj (a : C) : C := mkC (re a) (- im a).
Definition Cabs (a : C) : R := sqrt (re a * re a + im a * im a).

(** Complex division; a zero divisor raises. *)
Definition Cdiv (a b : C) : result C :=
  let d := re b * re b + im b * im b in
  if Req_dec_T d 0 then Raise ZeroDivisionError
  else Ok (mkC ((re a * re b + im a * im b) / d)
               ((im a * re b - re a * im b) / d)).

(** [np.exp] at a purely imaginary argument [1j*t]. *)
Definition Cexp_i (t : R) : C := mkC (cos t) (sin t).

Declare Scope C_scope.
Delimit Scope C_scope with C.
Bind Scope C_scope with C.
Infix "+" := Cadd : C_scope.
Infix "-" := Csub : C_scope.
Infix "*" := Cmul : C_scope.

(** ** Machine model parameters: [ModelPars] *)

Module ModelPars.

Record t : Type := mk {
  R_s : R;
  L_d : R;
  L_q : R;
  psi_f : R;
  n_p : Z;
  J : R
}.

End ModelPars.

(** ** Reference generation parameters: [CurrentReferencePars]

    The record holds the attributes left by [__post_init__].  The three
    lookup tables are built there by [TorqueCharacteristics], which lives
    in another file: they are kept as functions. *)

Module CurrentReferencePars.

Record t : Type := mk {
  i_s_max : R;
  psi_s_min : R;
  k_fw : R;
  k_u : R;
  i_sd_mtpa : R -> R;
  tau_M_lim : xfloat -> R;
  i_sd_lim : R -> R
}.

End CurrentReferencePars.

(** ** Current reference calculation: [CurrentReference] *)

Module CurrentReference.

Record t : Type := mk {
  n_p : Z;
  L_d : R;
  L_q : R;
  psi_f : R;
  i_sd_mtpa : R -> R;
  tau_M_lim : xfloat -> R;
  i_sd_lim : R -> R;
  psi_s_min : R;
  i_s_max : R;
  k_fw : R;
  k_u : R;
  (* State *)
  i_sd_ref : R
}.

Definition set_i_sd_ref (self : t) (v : R) : t :=
  mk (n_p self) (L_d self) (L_q self) (psi_f self) (i_sd_mtpa self)
     (tau_M_lim self) (i_sd_lim self) (psi_s_min self) (i_s_max self)
     (k_fw self) (k_u self) v.

Definition init (par : ModelPars.t) (ref : CurrentReferencePars.t) : t :=
  mk (ModelPars.n_p par) (ModelPars.L_d par) (ModelPars.L_q par)
     (ModelPars.psi_f par)
     (CurrentReferencePars.i_sd_mtpa ref)
     (CurrentReferencePars.tau_M_lim ref)
     (CurrentReferencePars.i_sd_lim ref)
     (CurrentReferencePars.psi_s_min ref)
     (CurrentReferencePars.i_s_max ref)
     (CurrentReferencePars.k_fw ref)
     (CurrentReferencePars.k_u ref)
     0.

(** The torque limit looked up by the nested [limit_torque]. *)
Definition tau_M_max (self : t) (w_m u_dc : R) : result R :=
  if Rgt_dec (np_abs w_m) 0 then
    psi_s_max <- fdiv (k_u self * u_dc / sqrt 3) (np_abs w_m) ;;
    Ok (tau_M_lim self (Num psi_s_max))
  else
    Ok (tau_M_lim self Inf).

Definition limit_torque (self : t) (tau_M_ref w_m u_dc : R) : result R :=
  tau_M_max <- tau_M_max self w_m u_dc ;;
  Ok (if Rgt_dec (np_abs tau_M_ref) tau_M_max
      then np_sign tau_M_ref * tau_M_max
      else tau_M_ref).

Definition psi_t (self : t) : R :=
  psi_f self + (L_d self - L_q self) * i_sd_ref self.

(** The bound [i_sq_max] on the q-axis current, at the limited torque. *)
Definition i_sq_max (self : t) (tau_M_ref : R) : xfloat :=
  let i_sd_mtpa := i_sd_mtpa self (np_abs tau_M_ref) in
  np_min [ np_sqrt (i_s_max self ^ 2 - i_sd_ref self ^ 2);
           np_sqrt (i_s_max self ^ 2 - i_sd_mtpa ^ 2) ].

(** [if np.abs(i_sq_ref) > i_sq_max: i_sq_ref = np.sign(i_sq_ref)*i_sq_max];
    the comparison is [False] unless the bound is a number. *)
Definition limit_i_sq (i_sq_ref : R) (i_sq_max : xfloat) : R :=
  if gt_xfloat (np_abs i_sq_ref) i_sq_max then
    match i_sq_max with
    | Num m => np_sign i_sq_ref * m
    | Inf | NaN => i_sq_ref
    end
  else i_sq_ref.

(** [output] returns the pair of the source together with the object after
    the call. *)
Definition output (self : t) (tau_M_ref w_m u_dc : R)
  : result ((C * R) * t) :=
  (* Limit the torque reference according to MTPV and current limits *)
  tau_M_ref <- limit_torque self tau_M_ref w_m u_dc ;;
  (* q-axis current reference *)
  let psi_t := psi_t self in
  i_sq_ref <- (if Req_dec_T psi_t 0 then Ok 0
               else fdiv tau_M_ref (1.5 * IZR (n_p self) * psi_t)) ;;
  (* Limit the q-axis current reference *)
  let i_sq_ref := limit_i_sq i_sq_ref (i_sq_max self tau_M_ref) in
  (* Current reference *)
  let i_s_ref := (RtoC (i_sd_ref self) + Ci * RtoC i_sq_ref)%C in
  (* Limited torque (for the speed controller) *)
  let tau_M_ref_lim := 1.5 * IZR (n_p self) * psi_t * i_sq_ref in
  Ok ((i_s_ref, tau_M_ref_lim), self).

(** The tail of [output] once the unlimited q-axis reference is known:
    limiting, the current reference and the limited torque. *)
Definition output_tail (self : t) (tau_M_ref i_sq_ref : R) : (C * R) * t :=
  let i_sq_ref := limit_i_sq i_sq_ref (i_sq_max self tau_M_ref) in
  (((RtoC (i_sd_ref self) + Ci * RtoC i_sq_ref)%C,
    1.5 * IZR (n_p self) * psi_t self * i_sq_ref), self).

Definition u_s_max (self : t) (u_dc : R) : R := k_u self * u_dc / sqrt 3.

Definition update (self : t) (T_s tau_M_ref_lim : R) (u_s_ref : C) (u_dc : R)
  : t :=
  let u_s_max := u_s_max self u_dc in
  let i_sd_ref :=
    i_sd_ref self + T_s * k_fw self * (u_s_max - Cabs u_s_ref) in
  (* Limit the current *)
  let i_sd_mtpa := i_sd_mtpa self (np_abs tau_M_ref_lim) in
  let i_sd_lim := i_sd_lim self (np_abs tau_M_ref_lim) in
  set_i_sd_ref self (np_clip i_sd_ref i_sd_lim i_sd_mtpa).

End CurrentReference.

(** ** Flux and rotor position observer: [Observer] *)

(** The observer gain [k] is documented as a callable; Python lets a number
    be passed as well, and the two are used differently. *)
Inductive gain : Type :=
| GainNum (r : R)
| GainFun (f : R -> R).

(** [k(w_m)]: calling a number raises. *)
Definition call_gain (k : gain) (w_m : R) : result R :=
  match k with
  | GainFun f => Ok (f w_m)
  | GainNum _ => Raise TypeError
  end.

(** [n*k] for an integer [n]: multiplying a function raises. *)
Definition int_mul_gain (n : Z) (k : gain) : result gain :=
  match k with
  | GainNum r => Ok (GainNum (IZR n * r))
  | GainFun _ => Raise TypeError
  end.

(** [k*e] for a complex [e]: multiplying a function raises. *)
Definition gain_mul (k : gain) (e : C) : result C :=
  match k with
  | GainNum r => Ok (RtoC r * e)%C
  | GainFun _ => Raise TypeError
  end.

Module Observer.

Record t : Type := mk {
  R_s : R;
  L_d : R;
  L_q : R;
  psi_f : R;
  alpha_o : R;
  sensorless : bool;
  k1 : gain;
  k2 : gain;
  (* States *)
  theta_m : R;
  w_m : R;
  psi_s : C
}.

Definition set_states (self : t) (theta w : R) (psi : C) : t :=
  mk (R_s self) (L_d self) (L_q self) (psi_f self) (alpha_o self)
     (sensorless self) (k1 self) (k2 self) theta w psi.

(** The default of [alpha_o] is [2*np.pi*40]. *)
Definition default_alpha_o : R := 2 * PI * 40.

Definition init (par : ModelPars.t) (alpha_o : R) (k : option gain)
    (sensorless : bool) : result t :=
  let R_s := ModelPars.R_s par in
  let L_d := ModelPars.L_d par in
  let L_q := ModelPars.L_q par in
  let psi_f := ModelPars.psi_f par in
  gains <-
    (if sensorless then
       k1 <- match k with
             | None => (* If not given, use the default gains *)
                 sigma0 <- fdiv (0.25 * R_s * (L_d + L_q)) (L_d * L_q) ;;
                 Ok (GainFun (fun w_m => sigma0 + 0.2 * np_abs w_m))
             | Some k => Ok k
             end ;;
       Ok (k1, k1)
     else
       let k1 := match k with
                 | None => GainFun (fun w_m => 2 * PI * 15)
                 | Some k => k
                 end in
       k2 <- int_mul_gain 0 k1 ;;
       Ok (k1, k2)) ;;
  (* Initial states *)
  Ok (mk R_s L_d L_q psi_f alpha_o sensorless (fst gains) (snd gains)
         0 0 (RtoC psi_f)).

(** The estimation error [e]. *)
Definition error (self : t) (i_s : C) : C :=
  (RtoC (L_d self * re i_s) + Ci * RtoC (L_q self * im i_s)
   + RtoC (psi_f self) - psi_s self)%C.

(** The auxiliary flux [psi_a]. *)
Definition aux_flux (self : t) (i_s : C) : C :=
  (RtoC (psi_f self) + RtoC (L_d self - L_q self) * Cconj i_s)%C.

(** [update(T_s, u_s, i_s, w_m=None)]; the fourth argument is the optional
    measured speed.  In the sensorless branch [k1] is the number returned by
    the gain function; in the other branch it is [self.k1] itself, and
    [1j*w_s] raises when no speed was supplied. *)
Definition update (self : t) (T_s : R) (u_s i_s : C) (w_m_meas : option R)
  : result t :=
  (* Estimation error *)
  let e := error self i_s in
  loc <-
    (if sensorless self then
       (* Auxiliary flux *)
       let psi_a := aux_flux self i_s in
       (* Observer gains *)
       k1 <- call_gain (k1 self) (w_m self) ;;
       k2 <- (if Rgt_dec (Cabs psi_a) 0
              then Cdiv (RtoC k1 * psi_a)%C (Cconj psi_a)
              else Ok (RtoC k1)) ;;
       (* Speed estimation *)
       eps <- (if Rgt_dec (Cabs psi_a) 0
               then q <- Cdiv e psi_a ;; Ok (- im q)
               else Ok 0) ;;
       let w_s := 2 * alpha_o self * eps + w_m self in
       Ok (GainNum k1, k2, w_s, eps)
     else
       w_s <- match w_m_meas with
              | Some w => Ok w
              | None => Raise TypeError
              end ;;
       Ok (k1 self, RtoC 0, w_s, 0)) ;;
  let '(k1, k2, w_s, eps) := loc in
  (* Update the states *)
  k1_e <- gain_mul k1 e ;;
  let psi_s' :=
    (psi_s self
     + RtoC T_s * (u_s - RtoC (R_s self) * i_s
                   - Ci * RtoC w_s * psi_s self + k1_e + k2 * Cconj e))%C in
  let w_m' := w_m self + T_s * alpha_o self ^ 2 * eps in
  let theta_m' := theta_m self + T_s * w_s in
  (* limit into [-pi, pi) *)
  let theta_m' := np_mod (theta_m' + PI) (2 * PI) - PI in
  Ok (set_states self theta_m' w_m' psi_s').

End Observer.

(** ** Collaborators defined outside this file

    The speed controller, the complex PI controller the current controller
    extends, the modulator, the sampling clock and the phase-to-vector
    transform come from [motulator.control._common] and
    [motulator._helpers].  They are taken through their interface; an
    [output] method may store intermediate values in its own object, so it
    returns the object as well. *)

Class Collaborators : Type := {
  SpeedCtrl : Type;
  SpeedCtrl_init : R -> R -> SpeedCtrl;
  SpeedCtrl_output : SpeedCtrl -> R -> R -> R * SpeedCtrl;
  SpeedCtrl_update : SpeedCtrl -> R -> R -> SpeedCtrl;
  ComplexPICtrl : Type;
  ComplexPICtrl_init : R -> R -> R -> ComplexPICtrl;
  ComplexPICtrl_output : ComplexPICtrl -> C -> C -> C * ComplexPICtrl;
  ComplexPICtrl_update : ComplexPICtrl -> R -> C -> R -> ComplexPICtrl;
  PWM : Type;
  PWM_init : PWM;
  PWM_realized_voltage : PWM -> C;
  PWM_call : PWM -> R -> C -> R -> R -> R -> (R * R * R) * PWM;
  Clock : Type;
  Clock_init : Clock;
  Clock_t : Clock -> R;
  Clock_update : Clock -> R -> Clock;
  abc2complex : R * R * R -> C
}.

(** The feedback signals read from the continuous-time model [mdl]. *)
Module Drive.

Record t : Type := mk {
  meas_currents : R * R * R;
  meas_dc_voltage : R;
  meas_speed : R;
  meas_position : R
}.

End Drive.

(** The record passed to [save]. *)
Module Bunch.

Record t : Type := mk {
  i_s : C;
  i_s_ref : C;
  t_ : R;
  tau_M_ref_lim : R;
  theta_m : R;
  u_dc : R;
  u_s : C;
  w_m : R;
  w_m_ref : R
}.

End Bunch.

(** ** Current controller: [CurrentCtrl] *)

Module CurrentCtrl.
Section WithCollaborators.
Context `{Collaborators}.

Record t : Type := mk {
  base : ComplexPICtrl;
  L_d : R;
  L_q : R
}.

Definition init (par : ModelPars.t) (alpha_c : R) : t :=
  let '(k_p, k_i, k_t) := (2 * alpha_c, alpha_c ^ 2, alpha_c) in
  mk (ComplexPICtrl_init k_p k_i k_t) (ModelPars.L_d par) (ModelPars.L_q par).

Definition output (self : t) (i_ref i : C) : C * t :=
  let psi_ref :=
    (RtoC (L_d self * re i_ref) + Ci * RtoC (L_q self * im i_ref))%C in
  let psi := (RtoC (L_d self * re i) + Ci * RtoC (L_q self * im i))%C in
  let '(u, b) := ComplexPICtrl_output (base self) psi_ref psi in
  (u, mk b (L_d self) (L_q self)).

Definition update (self : t) (T_s : R) (u_lim : C) (w : R) : t :=
  mk (ComplexPICtrl_update (base self) T_s u_lim w) (L_d self) (L_q self).

End WithCollaborators.
End CurrentCtrl.

(** ** The control system: [VectorCtrl] *)

Module VectorCtrl.
Section WithCollaborators.
Context `{Collaborators}.

(** The attributes of the object; [clock] and [data] are those of the base
    class [Ctrl]. *)
Record t : Type := mk {
  T_s : R;
  sensorless : bool;
  n_p : Z;
  current_ref : CurrentReference.t;
  current_ctrl : CurrentCtrl.t;
  observer : option Observer.t;
  speed_ctrl : SpeedCtrl;
  pwm : PWM;
  w_m_ref : R -> R;
  clock : Clock;
  data : list Bunch.t
}.

Definition set_current_ref (s : t) (v : CurrentReference.t) : t :=
  mk (T_s s) (sensorless s) (n_p s) v (current_ctrl s) (observer s)
     (speed_ctrl s) (pwm s) (w_m_ref s) (clock s) (data s).

Definition set_current_ctrl (s : t) (v : CurrentCtrl.t) : t :=
  mk (T_s s) (sensorless s) (n_p s) (current_ref s) v (observer s)
     (speed_ctrl s) (pwm s) (w_m_ref s) (clock s) (data s).

Definition set_observer (s : t) (v : option Observer.t) : t :=
  mk (T_s s) (sensorless s) (n_p s) (current_ref s) (current_ctrl s) v
     (speed_ctrl s) (pwm s) (w_m_ref s) (clock s) (data s).

Definition set_speed_ctrl (s : t) (v : SpeedCtrl) : t :=
  mk (T_s s) (sensorless s) (n_p s) (current_ref s) (current_ctrl s)
     (observer s) v (pwm s) (w_m_ref s) (clock s) (data s).

Definition set_pwm (s : t) (v : PWM) : t :=
  mk (T_s s) (sensorless s) (n_p s) (current_ref s) (current_ctrl s)
     (observer s) (speed_ctrl s) v (w_m_ref s) (clock s) (data s).

Definition set_clock (s : t) (v : Clock) : t :=
  mk (T_s s) (sensorless s) (n_p s) (current_ref s) (current_ctrl s)
     (observer s) (speed_ctrl s) (pwm s) (w_m_ref s) v (data s).

Definition set_data (s : t) (v : list Bunch.t) : t :=
  mk (T_s s) (sensorless s) (n_p s) (current_ref s) (current_ctrl s)
     (observer s) (speed_ctrl s) (pwm s) (w_m_ref s) (clock s) v.

(** The default of [T_s] is [250e-6]. *)
Definition default_T_s : R := 250 / 1000000.

(** [__init__].  The placeholder [self.w_m_ref = callable] is the builtin,
    which answers [False], that is 0, at every time. *)
Definition init (par : ModelPars.t) (ref : CurrentReferencePars.t)
    (T_s : R) (sensorless : bool) : result t :=
  observer <-
    (if sensorless then
       o <- Observer.init par (2 * PI * 100) None true ;; Ok (Some o)
     else Ok None) ;;
  Ok (mk T_s sensorless (ModelPars.n_p par)
         (CurrentReference.init par ref)
         (CurrentCtrl.init par (2 * PI * 200))
         observer
         (SpeedCtrl_init (ModelPars.J par) (2 * PI * 4))
         PWM_init
         (fun _ => 0)
         Clock_init
         []).

(** *** The method calls made by the control loop

    A run of the loop threads the object and records, in order, the method
    calls it makes on its parts; an output call is recorded with the part it
    was made on.  The record survives an exception, as the mutations do.
    A call on a collaborator returns the pair of its result and of the
    collaborator after the call. *)

Inductive event : Type :=
| SpeedCtrlOutput (on : SpeedCtrl)
| CurrentRefOutput (on : CurrentReference.t)
| CurrentCtrlOutput (on : CurrentCtrl.t)
| Save (d : Bunch.t)
| ObserverUpdate
| SpeedCtrlUpdate
| CurrentRefUpdate
| CurrentCtrlUpdate
| ClockUpdate
| PwmCall.

Record frame : Type := mkFrame { self : t; trace : list event }.

Definition M (A : Type) : Type := frame -> result A * frame.

Definition retM {A : Type} (a : A) : M A := fun f => (Ok a, f).

Definition bindM {A B : Type} (m : M A) (k : A -> M B) : M B :=
  fun f =>
    match m f with
    | (Ok a, f') => k a f'
    | (Raise e, f') => (Raise e, f')
    end.

Notation "x <~ m ;; k" := (bindM m (fun x => k))
  (at level 61, m at next level, right associativity).

Definition lift {A : Type} (r : result A) : M A := fun f => (r, f).
Definition get : M t := fun f => (Ok (self f), f).
Definition put (s : t) : M unit := fun f => (Ok tt, mkFrame s (trace f)).
Definition emit (e : event) : M unit :=
  fun f => (Ok tt, mkFrame (self f) (trace f ++ [e])).

Definition speed_ctrl_output (w_M_ref w_M : R) : M R :=
  s <~ get ;;
  _ <~ emit (SpeedCtrlOutput (speed_ctrl s)) ;;
  let r := SpeedCtrl_output (speed_ctrl s) w_M_ref w_M in
  _ <~ put (set_speed_ctrl s (snd r)) ;;
  retM (fst r).

Definition current_ref_output (tau_M_ref w_m u_dc : R) : M (C * R) :=
  s <~ get ;;
  _ <~ emit (CurrentRefOutput (current_ref s)) ;;
  r <~ lift (CurrentReference.output (current_ref s) tau_M_ref w_m u_dc) ;;
  _ <~ put (set_current_ref s (snd r)) ;;
  retM (fst r).

Definition current_ctrl_output (i_s_ref i_s : C) : M C :=
  s <~ get ;;
  _ <~ emit (CurrentCtrlOutput (current_ctrl s)) ;;
  let r := CurrentCtrl.output (current_ctrl s) i_s_ref i_s in
  _ <~ put (set_current_ctrl s (snd r)) ;;
  retM (fst r).

(** Modelled from the spec: the log sink, [save] of the base class [Ctrl],
    accepts one flat record per tick; it is kept as a list of records. *)
Definition save (d : Bunch.t) : M unit :=
  s <~ get ;;
  _ <~ emit (Save d) ;;
  put (set_data s (data s ++ [d])).

Definition observer_update (T_s : R) (u_s i_s : C) : M unit :=
  s <~ get ;;
  _ <~ emit ObserverUpdate ;;
  match observer s with
  | Some o =>
      o' <~ lift (Observer.update o T_s u_s i_s None) ;;
      put (set_observer s (Some o'))
  | None => lift (Raise AttributeError)
  end.

Definition speed_ctrl_update (T_s tau_M_ref_lim : R) : M unit :=
  s <~ get ;;
  _ <~ emit SpeedCtrlUpdate ;;
  put (set_speed_ctrl s (SpeedCtrl_update (speed_ctrl s) T_s tau_M_ref_lim)).

Definition current_ref_update (T_s tau_M_ref_lim : R) (u_s_ref : C)
    (u_dc : R) : M unit :=
  s <~ get ;;
  _ <~ emit CurrentRefUpdate ;;
  put (set_current_ref s
         (CurrentReference.update (current_ref s) T_s tau_M_ref_lim
            u_s_ref u_dc)).

Definition current_ctrl_update (T_s : R) (u_s : C) (w_m : R) : M unit :=
  s <~ get ;;
  _ <~ emit CurrentCtrlUpdate ;;
  put (set_current_ctrl s (CurrentCtrl.update (current_ctrl s) T_s u_s w_m)).

Definition clock_update (T_s : R) : M unit :=
  s <~ get ;;
  _ <~ emit ClockUpdate ;;
  put (set_clock s (Clock_update (clock s) T_s)).

Definition pwm_call (T_s : R) (u_s_ref : C) (u_dc theta_m w_m : R)
  : M (R * R * R) :=
  s <~ get ;;
  _ <~ emit PwmCall ;;
  let r := PWM_call (pwm s) T_s u_s_ref u_dc theta_m w_m in
  _ <~ put (set_pwm s (snd r)) ;;
  retM (fst r).

(** "Get the states": the speed and the angle the loop works with. *)
Definition get_states (s : t) (mdl : Drive.t) : result (R * R) :=
  if sensorless s then
    match observer s with
    | Some o => Ok (Observer.w_m o, Observer.theta_m o)
    | None => Raise AttributeError
    end
  else
    let w_m := IZR (n_p s) * Drive.meas_speed mdl in
    let theta_m := IZR (n_p s) * Drive.meas_position mdl in
    let theta_m := np_mod (theta_m + PI) (2 * PI) - PI in
    Ok (w_m, theta_m).

(** [__call__]: the main control loop. *)
Definition call (mdl : Drive.t) : M (R * (R * R * R)) :=
  s <~ get ;;
  (* Get the speed reference *)
  let w_m_ref := w_m_ref s (Clock_t (clock s)) in
  (* Measure the feedback signals *)
  let i_s_abc := Drive.meas_currents mdl in
  let u_dc := Drive.meas_dc_voltage mdl in
  let u_s := PWM_realized_voltage (pwm s) in
  (* Get the states *)
  st <~ lift (get_states s mdl) ;;
  let '(w_m, theta_m) := st in
  (* Current vector in estimated rotor coordinates *)
  let i_s := (Cexp_i (- theta_m) * abc2complex i_s_abc)%C in
  (* Outputs *)
  w_M_ref <~ lift (fdiv w_m_ref (IZR (n_p s))) ;;
  w_M <~ lift (fdiv w_m (IZR (n_p s))) ;;
  tau_M_ref <~ speed_ctrl_output w_M_ref w_M ;;
  out <~ current_ref_output tau_M_ref w_m u_dc ;;
  let '(i_s_ref, tau_M_ref_lim) := out in
  u_s_ref <~ current_ctrl_output i_s_ref i_s ;;
  (* Data logging *)
  _ <~ save (Bunch.mk i_s i_s_ref (Clock_t (clock s)) tau_M_ref_lim theta_m
               u_dc u_s w_m w_m_ref) ;;
  (* Update states *)
  _ <~ (if sensorless s then observer_update (T_s s) u_s i_s else retM tt) ;;
  _ <~ speed_ctrl_update (T_s s) tau_M_ref_lim ;;
  _ <~ current_ref_update (T_s s) tau_M_ref_lim u_s_ref u_dc ;;
  _ <~ current_ctrl_update (T_s s) u_s w_m ;;
  _ <~ clock_update (T_s s) ;;
  d_abc <~ pwm_call (T_s s) u_s_ref u_dc theta_m w_m ;;
  retM (T_s s, d_abc).

(** One invocation on the object [s], with an empty record. *)
Definition run (s : t) (mdl : Drive.t) : result (R * (R * R * R)) * frame :=
  call mdl (mkFrame s []).

(** *** Reading a record of calls *)

Definition is_output (e : event) : bool :=
  match e with
  | SpeedCtrlOutput _ | CurrentRefOutput _ | CurrentCtrlOutput _ => true
  | _ => false
  end.

Definition is_update (e : event) : bool :=
  match e with
  | ObserverUpdate | SpeedCtrlUpdate | CurrentRefUpdate
  | CurrentCtrlUpdate | ClockUpdate => true
  | _ => false
  end.

(** No output call is recorded after an update call. *)
Fixpoint outputs_before_updates (tr : list event) : bool :=
  match tr with
  | [] => true
  | e :: r =>
      (if is_update e then forallb (fun e' => negb (is_output e')) r
       else true)
      && outputs_before_updates r
  end.

(** Every output call of the record was made on the part held by [s]. *)
Definition outputs_made_on (s : t) (tr : list event) : Prop :=
  forall e, In e tr ->
    match e with
    | SpeedCtrlOutput on => on = speed_ctrl s
    | CurrentRefOutput on => on = current_ref s
    | CurrentCtrlOutput on => on = current_ctrl s
    | _ => True
    end.

(** The record of a complete invocation. *)
Definition full_trace (s : t) (d : Bunch.t) : list event :=
  [SpeedCtrlOutput (speed_ctrl s);
   CurrentRefOutput (current_ref s);
   CurrentCtrlOutput (current_ctrl s);
   Save d]
  ++ (if sensorless s then [ObserverUpdate] else [])
  ++ [SpeedCtrlUpdate; CurrentRefUpdate; CurrentCtrlUpdate; ClockUpdate;
      PwmCall].

(** What one complete invocation computes, read from the record [d] it
    logs: it takes [s] to [s'] when the logged current reference and limited
    torque are the output of the generator held by [s], and the speed
    controller, the generator and the current controller held by [s'] are
    the updates of those that produced the outputs. *)
Definition one_tick (s s' : t) (d : Bunch.t) : Prop :=
  exists w_M_ref w_M,
    let so := SpeedCtrl_output (speed_ctrl s) w_M_ref w_M in
    let co :=
      CurrentCtrl.output (current_ctrl s) (Bunch.i_s_ref d) (Bunch.i_s d) in
    CurrentReference.output (current_ref s) (fst so) (Bunch.w_m d)
      (Bunch.u_dc d)
    = Ok ((Bunch.i_s_ref d, Bunch.tau_M_ref_lim d), current_ref s)
    /\ speed_ctrl s'
       = SpeedCtrl_update (snd so) (T_s s) (Bunch.tau_M_ref_lim d)
    /\ current_ref s'
       = CurrentReference.update (current_ref s) (T_s s)
           (Bunch.tau_M_ref_lim d) (fst co) (Bunch.u_dc d)
    /\ current_ctrl s'
       = CurrentCtrl.update (snd co) (T_s s) (Bunch.u_s d) (Bunch.w_m d).

End WithCollaborators.
End VectorCtrl.

(** ** The observer as the specification words it

    The reference definition of one sensorless observer step, written from
    the specification: the residual, the auxiliary flux, the error angle,
    the two gains, and the forward-Euler steps of the flux and of the speed
    estimates.  The quotient of two complex numbers is the product with the
    inverse; it is only used where the divisor has a positive modulus. *)

Module ObserverSpec.
Section Reference.

Variables (R_s L_d L_q psi_f alpha_o : R).
Variable k : R -> R.
Variables (psi_s_est : C) (w_m_est : R).
Variables (T_s : R) (u_s i_s : C).

Definition Cinv (z : C) : C :=
  mkC (re z / (Cabs z * Cabs z)) (- im z / (Cabs z * Cabs z)).

Definition Cquot (a b : C) : C := (a * Cinv b)%C.

(** [e = L_d·Re(i_s) + j·L_q·Im(i_s) + ψ_f − ψ_s_est] *)
Definition e : C :=
  mkC (L_d * re i_s + psi_f - re psi_s_est) (L_q * im i_s - im psi_s_est).

(** [ψ_a = ψ_f + (L_d − L_q)·conj(i_s)] *)
Definition psi_a : C :=
  mkC (psi_f + (L_d - L_q) * re i_s) (- ((L_d - L_q) * im i_s)).

(** [eps = −Im(e/ψ_a)] when [|ψ_a| > 0], else [0] *)
Definition eps : R :=
  if Rlt_dec 0 (Cabs psi_a) then - im (Cquot e psi_a) else 0.

(** [w_s = 2·α_o·eps + w_m_est] *)
Definition w_s : R := 2 * alpha_o * eps + w_m_est.

(** [k1 = k(w_m_est)] *)
Definition k1 : R := k w_m_est.

(** [k2 = k1·ψ_a/conj(ψ_a)] when [|ψ_a| > 0], else [k1] *)
Definition k2 : C :=
  if Rlt_dec 0 (Cabs psi_a)
  then Cquot (RtoC k1 * psi_a)%C (Cconj psi_a)
  else RtoC k1.

(** [ψ_s_est += T_s·(u_s − R_s·i_s − j·w_s·ψ_s_est + k1·e + k2·conj(e))] *)
Definition psi_s_next : C :=
  (psi_s_est
   + RtoC T_s * (u_s - RtoC R_s * i_s - Ci * RtoC w_s * psi_s_est
                 + RtoC k1 * e + k2 * Cconj e))%C.

(** [w_m_est += T_s·α_o²·eps] *)
Definition w_m_next : R := w_m_est + T_s * (alpha_o * alpha_o) * eps.

End Reference.
End ObserverSpec.

(** ** Sequences of field-weakening updates *)

Module FieldWeakening.

(** The arguments of one [update] call: [T_s], [tau_M_ref_lim], [u_s_ref]
    and [u_dc]. *)
Record args : Type := mk {
  T_s : R;
  tau_M_ref_lim : R;
  u_s_ref : C;
  u_dc : R
}.

Definition step (self : CurrentReference.t) (a : args) : CurrentReference.t :=
  CurrentReference.update self (T_s a) (tau_M_ref_lim a) (u_s_ref a) (u_dc a).

(** The voltage reference stays below the voltage limit. *)
Definition margin (self : CurrentReference.t) (a : args) : Prop :=
  0 < T_s a /\ Cabs (u_s_ref a) < CurrentReference.u_s_max self (u_dc a).

(** From one call to the next the d-axis state does not decrease, unless
    the call leaves it on the upper bound of the clamp. *)
Fixpoint nondecreasing_until_capped (self : CurrentReference.t)
    (l : list args) : Prop :=
  match l with
  | [] => True
  | a :: r =>
      let self' := step self a in
      (CurrentReference.i_sd_ref self <= CurrentReference.i_sd_ref self'
       \/ CurrentReference.i_sd_ref self'
          = CurrentReference.i_sd_mtpa self (np_abs (tau_M_ref_lim a)))
      /\ nondecreasing_until_capped self' r
  end.

End FieldWeakening.

(** ** Objects used as examples *)

Module Examples.

(** Machine parameters with three pole pairs and unit values otherwise,
    and reference parameters with constant lookup tables: the MTPA current
    is 0, the torque limit is 1 and the d-axis limit is -1. *)
Definition par : ModelPars.t := ModelPars.mk 1 1 1 1 3 1.

Definition ref : CurrentReferencePars.t :=
  CurrentReferencePars.mk 1 1 1 1 (fun _ => 0) (fun _ => 1) (fun _ => -1).

(** The generator built from them, with a given d-axis state. *)
Definition generator (i_sd_ref : R) : CurrentReference.t :=
  CurrentReference.mk 3 1 1 1 (fun _ => 0) (fun _ => 1) (fun _ => -1)
    1 1 1 1 i_sd_ref.

(** The same generator at rest, and with a d-axis state of twice the
    current limit. *)
Definition at_rest : CurrentReference.t := generator 0.
Definition overcurrent : CurrentReference.t := generator 2.

(** A generator whose total flux vanishes: no magnet flux, no saliency. *)
Definition fluxless : CurrentReference.t :=
  CurrentReference.mk 3 1 1 0 (fun _ => 0) (fun _ => 1) (fun _ => -1)
    1 1 1 1 0.

(** The sensorless observer [Observer(par, alpha_o=1)] in its initial
    state. *)
Definition observer : Observer.t :=
  Observer.mk 1 1 1 1 1 true
    (GainFun (fun w_m => 0.25 * 1 * (1 + 1) / (1 * 1) + 0.2 * np_abs w_m))
    (GainFun (fun w_m => 0.25 * 1 * (1 + 1) / (1 * 1) + 0.2 * np_abs w_m))
    0 0 (RtoC 1).

(** Collaborators that hold no state and answer 0. *)
Definition idle : Collaborators := {|
  SpeedCtrl := unit;
  SpeedCtrl_init := fun _ _ => tt;
  SpeedCtrl_output := fun _ _ _ => (0, tt);
  SpeedCtrl_update := fun _ _ _ => tt;
  ComplexPICtrl := unit;
  ComplexPICtrl_init := fun _ _ _ => tt;
  ComplexPICtrl_output := fun _ _ _ => (RtoC 0, tt);
  ComplexPICtrl_update := fun _ _ _ _ => tt;
  PWM := unit;
  PWM_init := tt;
  PWM_realized_voltage := fun _ => RtoC 0;
  PWM_call := fun _ _ _ _ _ _ => ((0, 0, 0), tt);
  Clock := unit;
  Clock_init := tt;
  Clock_t := fun _ => 0;
  Clock_update := fun _ _ => tt;
  abc2complex := fun _ => RtoC 0
|}.

(** A control system for a drive with a speed sensor, as [__init__] leaves
    it, and a drive whose shaft stands at the angle [PI]. *)
Definition sensored : @VectorCtrl.t idle :=
  @VectorCtrl.mk idle 1 false 3 at_rest
    (@CurrentCtrl.init idle par (2 * PI * 200)) None tt tt (fun _ => 0) tt [].

Definition drive : Drive.t := Drive.mk (0, 0, 0) 1 0 PI.

End Examples.

(** ** Construction of the reference parameters: [__post_init__]

    The lookup tables come from [TorqueCharacteristics], in another file;
    its three results are taken as functions of the arguments they are
    built from. *)

Module CurrentReferenceParsInit.
Section WithTables.

Variable mtpa_locus : ModelPars.t -> R -> R -> R -> R.
Variable limits_tau_M : ModelPars.t -> R -> xfloat -> R.
Variable limits_i_sd : ModelPars.t -> R -> R -> R.

(** The dataclass is called with [i_s_max] and the optional [psi_s_min],
    [w_m_nom], [alpha_fw], [k_fw] and [k_u]; [None] stands for an argument
    left at its default [None]. *)
Definition post_init (par : ModelPars.t) (i_s_max : R)
    (psi_s_min w_m_nom : option R) (alpha_fw : R) (k_fw : option R)
    (k_u : R) : result CurrentReferencePars.t :=
  (* Minimum stator flux *)
  let psi_s_min :=
    match psi_s_min with
    | None => ModelPars.psi_f par
    | Some p => p
    end in
  (* Field-weakening gain *)
  k_fw <- match k_fw with
          | Some k => Ok k
          | None =>
              match w_m_nom with
              | Some w => fdiv alpha_fw (w * ModelPars.L_d par)
              | None => Raise TypeError
              end
          end ;;
  (* Generate LUTs *)
  Ok (CurrentReferencePars.mk i_s_max psi_s_min k_fw k_u
        (mtpa_locus par i_s_max psi_s_min)
        (limits_tau_M par i_s_max)
        (limits_i_sd par i_s_max)).

(** The defaults of [alpha_fw] and [k_u]. *)
Definition default_alpha_fw : R := 2 * PI * 20.
Definition default_k_u : R := 0.95.

End WithTables.
End CurrentReferenceParsInit.

(** ** Runs of the reference generator *)

Module GeneratorRuns.

(** The object after a sequence of [update] calls. *)
Definition after (self : CurrentReference.t) (l : list FieldWeakening.args)
  : CurrentReference.t :=
  fold_left FieldWeakening.step l self.

(** The voltage reference exceeds the voltage limit. *)
Definition overvoltage (self : CurrentReference.t) (a : FieldWeakening.args)
  : Prop :=
  0 < FieldWeakening.T_s a
  /\ CurrentReference.u_s_max self (FieldWeakening.u_dc a)
     < Cabs (FieldWeakening.u_s_ref a).

(** From one call to the next the d-axis state does not increase, unless
    the call leaves it on the lower bound of the clamp. *)
Fixpoint nonincreasing_until_floored (self : CurrentReference.t)
    (l : list FieldWeakening.args) : Prop :=
  match l with
  | [] => True
  | a :: r =>
      let self' := FieldWeakening.step self a in
      (CurrentReference.i_sd_ref self' <= CurrentReference.i_sd_ref self
       \/ CurrentReference.i_sd_ref self'
          = CurrentReference.i_sd_lim self
              (np_abs (FieldWeakening.tau_M_ref_lim a)))
      /\ nonincreasing_until_floored self' r
  end.

(** The lookup tables keep the d-axis current within the current limit and
    the lower bound of the clamp below the upper one. *)
Definition tables_within_limit (self : CurrentReference.t) : Prop :=
  forall tau,
    - CurrentReference.i_s_max self <= CurrentReference.i_sd_lim self tau
    /\ CurrentReference.i_sd_lim self tau
       <= CurrentReference.i_sd_mtpa self tau
    /\ CurrentReference.i_sd_mtpa self tau <= CurrentReference.i_s_max self.

End GeneratorRuns.

(** ** Consecutive invocations of the control loop *)

Module VectorCtrlRuns.
Section WithCollaborators.
Context `{Collaborators}.

(** The object after one invocation per reading of the drive, in order;
    the first exception ends the sequence. *)
Fixpoint ticks (s : VectorCtrl.t) (mdls : list Drive.t)
  : result VectorCtrl.t :=
  match mdls with
  | [] => Ok s
  | mdl :: r =>
      match VectorCtrl.run s mdl with
      | (Ok _, f) => ticks (VectorCtrl.self f) r
      | (Raise e, _) => Raise e
      end
  end.

(** The pole-pair numbers are not zero and, in sensorless mode, the
    observer is a sensorless one with a gain function. *)
Definition runnable (s : VectorCtrl.t) : Prop :=
  VectorCtrl.n_p s <> 0%Z
  /\ CurrentReference.n_p (VectorCtrl.current_ref s) <> 0%Z
  /\ (VectorCtrl.sensorless s = true ->
      exists o k,
        VectorCtrl.observer s = Some o
        /\ Observer.sensorless o = true
        /\ Observer.k1 o = GainFun k).

End WithCollaborators.
End VectorCtrlRuns.

(** ** Induction machine models: [InductionMachine]

    From [motulator/model/im/_drive.py].  The three machine classes share
    the record: [InductionMachineSaturated] overrides [currents] and holds
    a function as [L_s]; [InductionMachineInvGamma] only has a constructor
    of its own. *)

(** The stator inductance: a number, or a function of the flux magnitude. *)
Inductive inductance : Type :=
| Lconst (L : R)
| Lfun (f : R -> R).

(** [z / x] for a complex [z] and a float [x]. *)
Definition Cdiv_real (z : C) (x : R) : result C :=
  if Req_dec_T x 0 then Raise ZeroDivisionError
  else Ok (mkC (re z / x) (im z / x)).

Module InductionMachine.

Inductive class : Set :=
| Gamma
| Saturated.

Record t : Type := mk {
  cls : class;
  n_p : Z;
  R_s : R;
  R_r : R;
  L_ell : R;
  L_s : inductance;
  (* Initial values *)
  psi_ss0 : C;
  psi_rs0 : C
}.

Definition set_initial (self : t) (psi_ss psi_rs : C) : t :=
  mk (cls self) (n_p self) (R_s self) (R_r self) (L_ell self) (L_s self)
     psi_ss psi_rs.

(** [InductionMachine(n_p, R_s, R_r, L_ell, L_s)] *)
Definition init (n_p : Z) (R_s R_r L_ell : R) (L_s : inductance) : t :=
  mk Gamma n_p R_s R_r L_ell L_s (RtoC 0) (RtoC 0).

(** [InductionMachineSaturated(n_p, R_s, R_r, L_ell, L_s)]: the inherited
    constructor. *)
Definition init_saturated (n_p : Z) (R_s R_r L_ell : R) (L_s : inductance)
  : t :=
  mk Saturated n_p R_s R_r L_ell L_s (RtoC 0) (RtoC 0).

(** [InductionMachineInvGamma(n_p, R_s, R_R, L_sgm, L_M)] *)
Definition init_inv_gamma (n_p : Z) (R_s R_R L_sgm L_M : R) : result t :=
  (* Convert the inverse-Γ parameters to the Γ parameters *)
  gamma <- fdiv L_M (L_M + L_sgm) ;;
  R_r <- fdiv R_R (gamma ^ 2) ;;
  L_ell <- fdiv L_sgm gamma ;;
  let self := init n_p R_s R_r L_ell (Lconst (L_M + L_sgm)) in
  (* Initial values *)
  Ok (set_initial self (RtoC 0) (RtoC 0)).

Definition currents (self : t) (psi_ss psi_rs : C) : result (C * C) :=
  match cls self with
  | Gamma =>
      i_rs <- Cdiv_real (psi_rs - psi_ss)%C (L_ell self) ;;
      q <- match L_s self with
           | Lconst L => Cdiv_real psi_ss L
           | Lfun _ => Raise TypeError
           end ;;
      Ok ((q - i_rs)%C, i_rs)
  | Saturated =>
      (* Saturated value of the stator inductance. *)
      L_s <- match L_s self with
             | Lfun f => Ok (f (Cabs psi_ss))
             | Lconst _ => Raise TypeError
             end ;;
      (* Currents *)
      i_rs <- Cdiv_real (psi_rs - psi_ss)%C (L_ell self) ;;
      q <- Cdiv_real psi_ss L_s ;;
      Ok ((q - i_rs)%C, i_rs)
  end.

(** The stator inductance [currents] works with at the flux [psi_ss]: the
    number held by a machine of the base class, the value of the function
    held by a saturated machine. *)
Definition inductance_at (self : t) (psi_ss : C) : option R :=
  match cls self, L_s self with
  | Gamma, Lconst L => Some L
  | Saturated, Lfun f => Some (f (Cabs psi_ss))
  | _, _ => None
  end.

Definition magnetic (self : t) (psi_ss psi_rs : C) : result (C * C * R) :=
  i <- currents self psi_ss psi_rs ;;
  let '(i_ss, i_rs) := i in
  let tau_M := 1.5 * IZR (n_p self) * im (i_ss * Cconj psi_ss)%C in
  Ok (i_ss, i_rs, tau_M).

(** [f] returns the list of the two state derivatives, the stator current
    and the torque. *)
Definition f (self : t) (psi_ss psi_rs u_ss : C) (w_M : R)
  : result (list C * C * R) :=
  m <- magnetic self psi_ss psi_rs ;;
  let '(i_ss, i_rs, tau_M) := m in
  let dpsi_ss := (u_ss - RtoC (R_s self) * i_ss)%C in
  let dpsi_rs :=
    (RtoC (- R_r self) * i_rs
     + Ci * RtoC (IZR (n_p self)) * RtoC w_M * psi_rs)%C in
  Ok ([dpsi_ss; dpsi_rs], i_ss, tau_M).

End InductionMachine.

(** ** The drive model: [Drive]

    The mechanics and the converter are objects of other files.  Of the
    mechanics the methods below only use the two initial values; the
    converter is not used by them and is kept as it is.  The state vector
    handed over by the solver has the four entries the methods index. *)

Module Mechanics.

Record t : Type := mk {
  w_M0 : R;
  theta_M0 : R
}.

End Mechanics.

(** The solution the solver hands to [save]: the times, the switching
    states and the four rows of [y]. *)
Module Solution.

Record t (Q : Type) : Type := mk {
  t_ : list R;
  q : list Q;
  y0 : list C;
  y1 : list C;
  y2 : list C;
  y3 : list C
}.

Arguments mk {Q}.
Arguments t_ {Q}.
Arguments q {Q}.
Arguments y0 {Q}.
Arguments y1 {Q}.
Arguments y2 {Q}.
Arguments y3 {Q}.

End Solution.

Module DriveModel.
Section WithConverter.

(** The converter and its switching states. *)
Variables Converter Q : Type.

(** [self.data], with the six lists the constructor creates. *)
Record data_t : Type := mkData {
  t_ : list R;
  q : list Q;
  psi_ss : list C;
  psi_rs : list C;
  theta_M : list R;
  w_M : list R
}.

Record t : Type := mk {
  machine : InductionMachine.t;
  mechanics : Mechanics.t;
  converter : Converter;
  t0 : R;
  data : data_t
}.

Definition init (machine : InductionMachine.t) (mechanics : Mechanics.t)
    (converter : Converter) : t :=
  mk machine mechanics converter 0 (mkData [] [] [] [] [] []).



Definition save (self : t) (sol : Solution.t Q) : t :=
  let d := data self in
  mk (machine self) (mechanics self) (converter self) (t0 self)
     (mkData (t_ d ++ Solution.t_ sol)
        (q d ++ Solution.q sol)
        (psi_ss d ++ Solution.y0 sol)
        (psi_rs d ++ Solution.y1 sol)
        (theta_M d ++ map re (Solution.y3 sol))
        (w_M d ++ map re (Solution.y2 sol))).

(** Every list of the data has the same length. *)
Definition aligned (d : data_t) : Prop :=
  length (q d) = length (t_ d)
  /\ length (psi_ss d) = length (t_ d)
  /\ length (psi_rs d) = length (t_ d)
  /\ length (theta_M d) = length (t_ d)
  /\ length (w_M d) = length (t_ d).

(** Every row of the solution has one entry per time. *)
Definition well_formed (sol : Solution.t Q) : Prop :=
  length (Solution.q sol) = length (Solution.t_ sol)
  /\ length (Solution.y0 sol) = length (Solution.t_ sol)
  /\ length (Solution.y1 sol) = length (Solution.t_ sol)
  /\ length (Solution.y2 sol) = length (Solution.t_ sol)
  /\ length (Solution.y3 sol) = length (Solution.t_ sol).

(** Two solutions, one after the other. *)
Definition concat (a b : Solution.t Q) : Solution.t Q :=
  Solution.mk (Solution.t_ a ++ Solution.t_ b)
    (Solution.q a ++ Solution.q b)
    (Solution.y0 a ++ Solution.y0 b)
    (Solution.y1 a ++ Solution.y1 b)
    (Solution.y2 a ++ Solution.y2 b)
    (Solution.y3 a ++ Solution.y3 b).

End WithConverter.
End DriveModel.

(** * Properties *)

(** ** Arithmetic of the helpers *)

Ltac case_dec :=
  repeat match goal with
  | |- context [Rgt_dec ?a ?b] => destruct (Rgt_dec a b)
  | |- context [Rlt_dec ?a ?b] => destruct (Rlt_dec a b)
  | |- context [Req_dec_T ?a ?b] => destruct (Req_dec_T a b)
  | H : context [Rgt_dec ?a ?b] |- _ => destruct (Rgt_dec a b)
  | H : context [Rlt_dec ?a ?b] |- _ => destruct (Rlt_dec a b)
  | H : context [Req_dec_T ?a ?b] |- _ => destruct (Req_dec_T a b)
  end.

Lemma C_eq (a b : C) : re a = re b -> im a = im b -> a = b.
Proof. destruct a, b; simpl; intros -> ->; reflexivity. Qed.

Lemma three_halves : 1.5 = 3 / 2.
Proof. lra. Qed.

Lemma sqrt3_pos : 0 < sqrt 3.
Proof. apply sqrt_lt_R0; lra. Qed.

Lemma fdiv_ok (a b : R) : b <> 0 -> fdiv a b = Ok (a / b).
Proof. intros Hb; unfold fdiv; case_dec; [contradiction | reflexivity]. Qed.

Lemma fdiv_zero (a : R) : fdiv a 0 = Raise ZeroDivisionError.
Proof. unfold fdiv; case_dec; [reflexivity | lra]. Qed.

Lemma np_sign_abs (x : R) : np_sign x * x = Rabs x.
Proof.
  unfold np_sign; case_dec.
  - rewrite Rabs_left by assumption; ring.
  - rewrite Rabs_right by lra; ring.
  - replace x with 0 by lra. rewrite Rabs_R0; ring.
Qed.

Lemma np_sign_bound (x : R) : Rabs (np_sign x) <= 1.
Proof.
  unfold np_sign; case_dec.
  - rewrite Rabs_left by lra; lra.
  - rewrite Rabs_right by lra; lra.
  - rewrite Rabs_R0; lra.
Qed.

(** Clamping [x] to a bound [m >= 0], sign preserved, scales [x] by a
    factor between 0 and 1. *)
Lemma clamp_scales (x m : R) :
  0 <= m ->
  exists c, 0 <= c <= 1 /\
    (if Rgt_dec (np_abs x) m then np_sign x * m else x) = c * x.
Proof.
  intros Hm. unfold np_abs.
  destruct (Rgt_dec (Rabs x) m) as [Hgt | Hle].
  - assert (Hx : 0 < Rabs x) by lra.
    exists (m / Rabs x). split.
    + split.
      * apply Rmult_le_pos; [lra | left; apply Rinv_0_lt_compat; lra].
      * apply Rmult_le_reg_r with (Rabs x); [lra |].
        unfold Rdiv. rewrite Rmult_assoc, Rinv_l by lra. lra.
    + unfold np_sign. destruct (Rlt_dec x 0) as [Hneg | Hnn].
      * rewrite Rabs_left by assumption. field. lra.
      * destruct (Rlt_dec 0 x) as [Hpos | Hz].
        -- rewrite Rabs_right by lra. field. lra.
        -- exfalso. replace x with 0 in Hx by lra.
           rewrite Rabs_R0 in Hx. lra.
  - exists 1. split; [lra | ring].
Qed.

Lemma clamp_bound (x m : R) :
  0 <= m ->
  Rabs (if Rgt_dec (np_abs x) m then np_sign x * m else x) <= m.
Proof.
  intros Hm. unfold np_abs. destruct (Rgt_dec (Rabs x) m) as [Hgt | Hle].
  - rewrite Rabs_mult, (Rabs_right m) by lra.
    pose proof (np_sign_bound x) as Hs. nra.
  - lra.
Qed.

Lemma np_clip_cases (x lo hi : R) :
  np_clip x lo hi = hi \/ (np_clip x lo hi = Rmax x lo /\ Rmax x lo <= hi).
Proof.
  unfold np_clip, Rmin. destruct (Rle_dec (Rmax x lo) hi); [right | left]; auto.
Qed.

(** ** The current reference generator *)

Module CurrentReferenceFacts.
Import CurrentReference.

Lemma tau_M_max_returns (self : t) (w_m u_dc : R) :
  exists x, tau_M_max self w_m u_dc = Ok (tau_M_lim self x).
Proof.
  unfold tau_M_max, np_abs. destruct (Rgt_dec (Rabs w_m) 0) as [Hw | Hw].
  - rewrite fdiv_ok by lra. simpl. eauto.
  - eauto.
Qed.

Lemma tau_M_max_zero_speed (self : t) (u_dc : R) :
  tau_M_max self 0 u_dc = Ok (tau_M_lim self Inf).
Proof.
  unfold tau_M_max, np_abs. rewrite Rabs_R0.
  destruct (Rgt_dec 0 0); [lra | reflexivity].
Qed.

Lemma limit_torque_returns (self : t) (tau_M_ref w_m u_dc : R) :
  exists x,
    limit_torque self tau_M_ref w_m u_dc
    = Ok (if Rgt_dec (np_abs tau_M_ref) (tau_M_lim self x)
          then np_sign tau_M_ref * tau_M_lim self x
          else tau_M_ref).
Proof.
  unfold limit_torque.
  destruct (tau_M_max_returns self w_m u_dc) as [x ->]. simpl. eauto.
Qed.

(** The three ways through [output]: the zero-flux fallback, the division,
    and the division by zero that a zero pole-pair number causes. *)
Lemma output_cases (self : t) (tau_M_ref w_m u_dc : R) :
  exists tau',
    limit_torque self tau_M_ref w_m u_dc = Ok tau' /\
    ((psi_t self = 0 /\
      output self tau_M_ref w_m u_dc = Ok (output_tail self tau' 0))
     \/ (psi_t self <> 0 /\ n_p self = 0%Z /\
         output self tau_M_ref w_m u_dc = Raise ZeroDivisionError)
     \/ (psi_t self <> 0 /\ n_p self <> 0%Z /\
         output self tau_M_ref w_m u_dc
         = Ok (output_tail self tau'
                 (tau' / (1.5 * IZR (n_p self) * psi_t self))))).
Proof.
  destruct (limit_torque_returns self tau_M_ref w_m u_dc) as [x Hx].
  eexists. split; [exact Hx |].
  unfold output. rewrite Hx. cbn [bind].
  destruct (Req_dec_T (psi_t self) 0) as [Hz | Hnz].
  - left. split; [assumption | reflexivity].
  - right. destruct (Z.eq_dec (n_p self) 0) as [Hn | Hn].
    + left. repeat split; try assumption.
      rewrite Hn. replace (1.5 * 0 * psi_t self) with 0 by lra.
      rewrite fdiv_zero. reflexivity.
    + right. repeat split; try assumption.
      rewrite fdiv_ok; [reflexivity |].
      apply not_0_IZR in Hn.
      apply Rmult_integral_contrapositive_currified; [| assumption].
      apply Rmult_integral_contrapositive_currified; [lra | assumption].
Qed.

Lemma output_returns (self : t) (tau_M_ref w_m u_dc : R) :
  n_p self <> 0%Z \/ psi_t self = 0 ->
  returns (output self tau_M_ref w_m u_dc).
Proof.
  intros Hok.
  destruct (output_cases self tau_M_ref w_m u_dc)
    as [tau' [_ [[_ ->] | [[Hp [Hn _]] | [_ [_ ->]]]]]];
    try (eexists; reflexivity).
  destruct Hok; contradiction.
Qed.

(** [output] hands the object back as it received it. *)
Lemma output_same_object (self self' : t) (tau_M_ref w_m u_dc : R)
    (r : C * R) :
  output self tau_M_ref w_m u_dc = Ok (r, self') -> self' = self.
Proof.
  destruct (output_cases self tau_M_ref w_m u_dc)
    as [tau' [_ [[_ ->] | [[_ [_ ->]] | [_ [_ ->]]]]]];
    unfold output_tail; intros E; inversion E; reflexivity.
Qed.

Lemma i_sq_max_unfold (self : t) (tau : R) :
  i_sq_max self tau
  = np_minimum (np_sqrt (i_s_max self ^ 2 - i_sd_ref self ^ 2))
      (np_sqrt (i_s_max self ^ 2 - i_sd_mtpa self (np_abs tau) ^ 2)).
Proof. reflexivity. Qed.

(** The bound is a nonnegative number when both radicands are nonnegative. *)
Lemma i_sq_max_num (self : t) (tau : R) :
  0 <= i_s_max self ^ 2 - i_sd_ref self ^ 2 ->
  0 <= i_s_max self ^ 2 - i_sd_mtpa self (np_abs tau) ^ 2 ->
  i_sq_max self tau
  = Num (Rmin (sqrt (i_s_max self ^ 2 - i_sd_ref self ^ 2))
           (sqrt (i_s_max self ^ 2 - i_sd_mtpa self (np_abs tau) ^ 2))).
Proof.
  intros H1 H2. rewrite i_sq_max_unfold. unfold np_sqrt.
  destruct (Rlt_dec (i_s_max self ^ 2 - i_sd_ref self ^ 2) 0); [lra |].
  destruct (Rlt_dec (i_s_max self ^ 2 - i_sd_mtpa self (np_abs tau) ^ 2) 0);
    [lra | reflexivity].
Qed.

(** The bound is not a number as soon as one radicand is negative. *)
Lemma i_sq_max_nan (self : t) (tau : R) :
  i_s_max self ^ 2 - i_sd_ref self ^ 2 < 0
  \/ i_s_max self ^ 2 - i_sd_mtpa self (np_abs tau) ^ 2 < 0 ->
  i_sq_max self tau = NaN.
Proof.
  intros H. rewrite i_sq_max_unfold. unfold np_sqrt.
  destruct (Rlt_dec (i_s_max self ^ 2 - i_sd_ref self ^ 2) 0);
    destruct (Rlt_dec (i_s_max self ^ 2 - i_sd_mtpa self (np_abs tau) ^ 2) 0);
    try reflexivity.
  destruct H; contradiction.
Qed.

Lemma sqr_le_of_abs (a b : R) : Rabs a <= b -> 0 <= b ^ 2 - a ^ 2.
Proof.
  intros H. pose proof (Rabs_pos a) as Ha.
  assert (a ^ 2 = Rabs a ^ 2) as ->.
  { unfold Rabs. destruct (Rcase_abs a); ring. }
  nra.
Qed.

Lemma limit_i_sq_num (i m : R) :
  limit_i_sq i (Num m)
  = if Rgt_dec (np_abs i) m then np_sign i * m else i.
Proof.
  unfold limit_i_sq, gt_xfloat. destruct (Rgt_dec (np_abs i) m); reflexivity.
Qed.

Lemma limit_i_sq_nan (i : R) : limit_i_sq i NaN = i.
Proof. reflexivity. Qed.


Lemma Cabs_ref (a b : R) :
  Cabs (RtoC a + Ci * RtoC b)%C = sqrt (a ^ 2 + b ^ 2).
Proof. unfold Cabs; simpl. f_equal. ring. Qed.

Lemma output_tail_within_limit (self : t) (tau' i : R) :
  Rabs (i_sd_ref self) <= i_s_max self ->
  Rabs (i_sd_mtpa self (np_abs tau')) <= i_s_max self ->
  Cabs (fst (fst (output_tail self tau' i))) <= i_s_max self.
Proof.
  intros Hd Hm.
  pose proof (sqr_le_of_abs _ _ Hd) as Rd.
  pose proof (sqr_le_of_abs _ _ Hm) as Rm.
  unfold output_tail. cbn [fst]. rewrite Cabs_ref.
  rewrite (i_sq_max_num self tau' Rd Rm), limit_i_sq_num.
  set (a := i_s_max self ^ 2 - i_sd_ref self ^ 2) in *.
  set (b := i_s_max self ^ 2 - i_sd_mtpa self (np_abs tau') ^ 2) in *.
  set (m := Rmin (sqrt a) (sqrt b)).
  assert (Hm0 : 0 <= m).
  { unfold m. apply Rmin_glb; apply sqrt_pos. }
  pose proof (clamp_bound i m Hm0) as Hq.
  set (q := if Rgt_dec (np_abs i) m then np_sign i * m else i) in *.
  assert (Hqa : q ^ 2 <= a).
  { assert (Hq2 : Rabs q <= sqrt a).
    { apply Rle_trans with m; [assumption | apply Rmin_l]. }
    pose proof (Rabs_pos q) as Hq0.
    assert (q ^ 2 = Rabs q ^ 2) as ->.
    { unfold Rabs. destruct (Rcase_abs q); ring. }
    rewrite <- (sqrt_sqrt a Rd) at 1.
    pose proof (sqrt_pos a). nra. }
  assert (Hi0 : 0 <= i_s_max self).
  { apply Rle_trans with (Rabs (i_sd_ref self)); [apply Rabs_pos | assumption]. }
  rewrite <- (sqrt_pow2 (i_s_max self) Hi0).
  apply sqrt_le_1_alt. unfold a in Hqa. lra.
Qed.

(** The example generator at rest is the one the constructor builds. *)
Lemma init_example : init Examples.par Examples.ref = Examples.at_rest.
Proof. reflexivity. Qed.

(** C3.  Whenever the d-axis state and the MTPA value looked up by the call
    (at the torque reference after limiting, as the source has it) are
    within the current limit, the returned current reference is within the
    current limit.  The call always returns, except for the division by
    zero of an object with no pole pairs. *)
Theorem output_within_current_limit (self : t) (tau_M_ref w_m u_dc : R) :
  Rabs (i_sd_ref self) <= i_s_max self ->
  (forall tau', limit_torque self tau_M_ref w_m u_dc = Ok tau' ->
                Rabs (i_sd_mtpa self (np_abs tau')) <= i_s_max self) ->
  match output self tau_M_ref w_m u_dc with
  | Ok ((i_s_ref, _), _) => Cabs i_s_ref <= i_s_max self
  | Raise e => e = ZeroDivisionError /\ n_p self = 0%Z
  end.
Proof.
  intros Hd Hm.
  destruct (output_cases self tau_M_ref w_m u_dc)
    as [tau' [Hl [[_ ->] | [[_ [Hn ->]] | [_ [_ ->]]]]]].
  - pose proof (output_tail_within_limit self tau' 0 Hd (Hm _ Hl)) as Hb.
    destruct (output_tail self tau' 0) as [[i ?] ?]. exact Hb.
  - split; [reflexivity | assumption].
  - pose proof (output_tail_within_limit self tau'
                  (tau' / (1.5 * IZR (n_p self) * psi_t self))
                  Hd (Hm _ Hl)) as Hb.
    destruct (output_tail self tau' _) as [[i ?] ?]. exact Hb.
Qed.

Lemma output_within_current_limit_witness :
  Rabs (i_sd_ref Examples.at_rest) <= i_s_max Examples.at_rest
  /\ match output Examples.at_rest 1 0 1 with
     | Ok ((i_s_ref, _), _) => Cabs i_s_ref <= i_s_max Examples.at_rest
     | Raise e => e = ZeroDivisionError /\ n_p Examples.at_rest = 0%Z
     end.
Proof.
  assert (H0 : Rabs 0 <= 1) by (rewrite Rabs_R0; lra).
  split; [exact H0 |].
  apply (output_within_current_limit Examples.at_rest 1 0 1).
  - exact H0.
  - intros tau' _. exact H0.
Defined.

(** C5.  The divisions of [output] that a zero operand would break are
    guarded.  With a zero total flux the call returns, and the q-axis
    reference and the limited torque are 0.  At zero speed the torque limit
    is looked up at infinite flux and the outcome does not depend on the DC
    voltage.  With a nonzero pole-pair number no call raises. *)
Theorem output_division_fallbacks (self : t) (tau_M_ref w_m u_dc : R) :
  (psi_t self = 0 ->
   exists i_s_ref,
     output self tau_M_ref w_m u_dc = Ok ((i_s_ref, 0), self)
     /\ im i_s_ref = 0)
  /\ (w_m = 0 ->
      tau_M_max self w_m u_dc = Ok (tau_M_lim self Inf)
      /\ forall u_dc',
           output self tau_M_ref w_m u_dc' = output self tau_M_ref w_m u_dc)
  /\ (n_p self <> 0%Z -> returns (output self tau_M_ref w_m u_dc)).
Proof.
  split; [| split].
  - intros Hz.
    destruct (output_cases self tau_M_ref w_m u_dc)
      as [tau' [_ [[_ ->] | [[Hnz _] | [Hnz _]]]]]; try contradiction.
    assert (Hq : limit_i_sq 0 (i_sq_max self tau') = 0).
    { unfold limit_i_sq.
      destruct (gt_xfloat (np_abs 0) (i_sq_max self tau')); [| reflexivity].
      destruct (i_sq_max self tau'); try reflexivity.
      unfold np_sign. case_dec; lra. }
    unfold output_tail. rewrite Hq, Hz. eexists. split.
    + f_equal. f_equal. f_equal. ring.
    + simpl. ring.
  - intros ->. split; [apply tau_M_max_zero_speed |].
    intros u_dc'. unfold output, limit_torque.
    rewrite !tau_M_max_zero_speed. reflexivity.
  - intros Hn. apply output_returns. left; assumption.
Qed.

Lemma output_division_fallbacks_witness :
  (exists i_s_ref,
     output Examples.fluxless 1 0 1 = Ok ((i_s_ref, 0), Examples.fluxless)
     /\ im i_s_ref = 0)
  /\ (tau_M_max Examples.fluxless 0 1 = Ok (tau_M_lim Examples.fluxless Inf)
      /\ forall u_dc',
           output Examples.fluxless 1 0 u_dc' = output Examples.fluxless 1 0 1)
  /\ returns (output Examples.fluxless 1 0 1).
Proof.
  destruct (output_division_fallbacks Examples.fluxless 1 0 1)
    as [Hflux [Hspeed Hpoles]].
  split; [| split].
  - apply Hflux. unfold psi_t; simpl. lra.
  - apply Hspeed. reflexivity.
  - apply Hpoles. simpl. lia.
Defined.

(** C6, as the code has it.  The radicands are not floored.  When the
    d-axis state and the MTPA value are within the current limit both
    radicands are nonnegative and the bound on the q-axis current is a
    nonnegative number.  When a radicand is negative the bound is not a
    number, and the q-axis reference passes unlimited. *)
Theorem i_sq_max_radicands (self : t) (tau_M_ref : R) :
  (Rabs (i_sd_ref self) <= i_s_max self ->
   Rabs (i_sd_mtpa self (np_abs tau_M_ref)) <= i_s_max self ->
   exists m, i_sq_max self tau_M_ref = Num m /\ 0 <= m)
  /\ (i_s_max self ^ 2 - i_sd_ref self ^ 2 < 0
      \/ i_s_max self ^ 2 - i_sd_mtpa self (np_abs tau_M_ref) ^ 2 < 0 ->
      i_sq_max self tau_M_ref = NaN
      /\ forall i_sq_ref,
           limit_i_sq i_sq_ref (i_sq_max self tau_M_ref) = i_sq_ref).
Proof.
  split.
  - intros Hd Hm.
    rewrite (i_sq_max_num self tau_M_ref
               (sqr_le_of_abs _ _ Hd) (sqr_le_of_abs _ _ Hm)).
    eexists. split; [reflexivity |]. apply Rmin_glb; apply sqrt_pos.
  - intros Hneg. rewrite (i_sq_max_nan self tau_M_ref Hneg).
    split; [reflexivity | intros; apply limit_i_sq_nan].
Qed.

Lemma i_sq_max_radicands_witness :
  (exists m, i_sq_max Examples.at_rest 1 = Num m /\ 0 <= m)
  /\ (i_sq_max Examples.overcurrent 1 = NaN
      /\ forall i_sq_ref,
           limit_i_sq i_sq_ref (i_sq_max Examples.overcurrent 1) = i_sq_ref).
Proof.
  assert (H0 : Rabs 0 <= 1) by (rewrite Rabs_R0; lra).
  split.
  - apply (proj1 (i_sq_max_radicands Examples.at_rest 1)); exact H0.
  - apply (proj2 (i_sq_max_radicands Examples.overcurrent 1)).
    left. simpl. lra.
Defined.

(** C6, as stated, fails: with a d-axis state of 2 and a current limit of 1
    the first radicand is -3, the bound is not a number rather than 0, and
    the q-axis reference 2/9 is returned where a zero floor would give 0. *)
Lemma i_sq_max_not_floored :
  i_sq_max Examples.overcurrent 1 = NaN
  /\ output Examples.overcurrent 1 0 1
     = Ok ((mkC 2 (2 / 9), 1), Examples.overcurrent).
Proof.
  assert (Hnan : i_sq_max Examples.overcurrent 1 = NaN).
  { apply i_sq_max_nan. left. simpl. lra. }
  split; [exact Hnan |].
  destruct (output_cases Examples.overcurrent 1 0 1)
    as [tau' [Hl [[Hz _] | [[_ [Hn _]] | [_ [_ ->]]]]]].
  - unfold psi_t in Hz; simpl in Hz. lra.
  - simpl in Hn. lia.
  - assert (Ht : tau' = 1).
    { unfold limit_torque in Hl. rewrite tau_M_max_zero_speed in Hl.
      simpl in Hl. unfold np_abs in Hl. rewrite Rabs_R1 in Hl.
      destruct (Rgt_dec 1 1); [lra | congruence]. }
    subst tau'. unfold output_tail. rewrite Hnan, limit_i_sq_nan.
    f_equal. f_equal. f_equal.
    + apply C_eq; unfold psi_t; simpl; rewrite three_halves; field.
    + unfold psi_t; simpl. rewrite three_halves. field.
Qed.

(** C9.  [output] hands back the object it was called on, and a second call
    with the same arguments gives the same outcome as the first: two calls
    in a row amount to one call whose result is read twice. *)
Theorem output_no_hidden_mutation (self : t) (tau_M_ref w_m u_dc : R) :
  match output self tau_M_ref w_m u_dc with
  | Ok (r, self') =>
      self' = self /\ output self' tau_M_ref w_m u_dc = Ok (r, self')
  | Raise _ => True
  end
  /\ (r1 <- output self tau_M_ref w_m u_dc ;;
      r2 <- output (snd r1) tau_M_ref w_m u_dc ;;
      Ok (fst r1, fst r2, snd r2))
     = (r <- output self tau_M_ref w_m u_dc ;; Ok (fst r, fst r, self)).
Proof.
  destruct (output self tau_M_ref w_m u_dc) as [[r self'] | e] eqn:E.
  - pose proof (output_same_object _ _ _ _ _ _ E) as ->.
    split; [split; [reflexivity | exact E] |].
    cbn [bind snd fst]. rewrite E. reflexivity.
  - split; [exact I | reflexivity].
Qed.

Lemma i_sq_max_shape (self : t) (tau : R) :
  i_sq_max self tau = NaN
  \/ exists m, i_sq_max self tau = Num m /\ 0 <= m.
Proof.
  destruct (Rlt_dec (i_s_max self ^ 2 - i_sd_ref self ^ 2) 0) as [H1 | H1].
  { left. apply i_sq_max_nan. left; assumption. }
  destruct (Rlt_dec (i_s_max self ^ 2 - i_sd_mtpa self (np_abs tau) ^ 2) 0)
    as [H2 | H2].
  { left. apply i_sq_max_nan. right; assumption. }
  right. rewrite i_sq_max_num by lra.
  eexists. split; [reflexivity |]. apply Rmin_glb; apply sqrt_pos.
Qed.

(** Limiting the q-axis reference scales it by a factor between 0 and 1. *)
Lemma limit_i_sq_scales (self : t) (tau i : R) :
  exists c, 0 <= c <= 1 /\ limit_i_sq i (i_sq_max self tau) = c * i.
Proof.
  destruct (i_sq_max_shape self tau) as [-> | [m [-> Hm]]].
  - exists 1. rewrite limit_i_sq_nan. split; [lra | ring].
  - rewrite limit_i_sq_num. apply clamp_scales; assumption.
Qed.

Lemma scaled_shrinks (c x : R) :
  0 <= c <= 1 -> Rabs (c * x) <= Rabs x /\ 0 <= c * x * x.
Proof.
  intros Hc. split.
  - rewrite Rabs_mult, (Rabs_right c) by lra.
    pose proof (Rabs_pos x). nra.
  - pose proof (pow2_ge_0 x). nra.
Qed.

(** C10.  When the torque-limit table is nonnegative, the limited torque
    handed back to the speed controller is the requested torque scaled by a
    factor between 0 and 1: no larger in magnitude and never of the opposite
    sign.  The bound on the q-axis current needs no assumption: it is either
    not a number, and then limits nothing, or a nonnegative number. *)
Theorem limited_torque_shrinks (self : t) (tau_M_ref w_m u_dc : R) :
  (forall x, 0 <= tau_M_lim self x) ->
  match output self tau_M_ref w_m u_dc with
  | Ok ((_, tau_M_ref_lim), _) =>
      Rabs tau_M_ref_lim <= Rabs tau_M_ref
      /\ 0 <= tau_M_ref_lim * tau_M_ref
  | Raise e => e = ZeroDivisionError /\ n_p self = 0%Z
  end.
Proof.
  intros Hlim.
  destruct (limit_torque_returns self tau_M_ref w_m u_dc) as [x Hx].
  destruct (clamp_scales tau_M_ref (tau_M_lim self x) (Hlim x))
    as [c1 [Hc1 E1]].
  rewrite E1 in Hx.
  destruct (output_cases self tau_M_ref w_m u_dc)
    as [tau' [Hl [[Hz ->] | [[_ [Hn ->]] | [Hz [Hn ->]]]]]].
  - unfold output_tail. rewrite Hz.
    replace (1.5 * IZR (n_p self) * 0 * _) with (0 * tau_M_ref) by ring.
    apply scaled_shrinks; lra.
  - split; [reflexivity | assumption].
  - rewrite Hx in Hl. inversion Hl; subst tau'; clear Hl.
    unfold output_tail.
    set (D := 1.5 * IZR (n_p self) * psi_t self).
    assert (HD : D <> 0).
    { unfold D. apply not_0_IZR in Hn.
      apply Rmult_integral_contrapositive_currified; [| assumption].
      apply Rmult_integral_contrapositive_currified; [lra | assumption]. }
    destruct (limit_i_sq_scales self (c1 * tau_M_ref) (c1 * tau_M_ref / D))
      as [c2 [Hc2 ->]].
    replace (D * (c2 * (c1 * tau_M_ref / D))) with (c2 * c1 * tau_M_ref)
      by (field; assumption).
    apply scaled_shrinks. nra.
Qed.

Lemma limited_torque_shrinks_witness :
  (forall x, 0 <= tau_M_lim Examples.at_rest x)
  /\ match output Examples.at_rest 5 0 1 with
     | Ok ((_, tau_M_ref_lim), _) =>
         Rabs tau_M_ref_lim <= Rabs 5 /\ 0 <= tau_M_ref_lim * 5
     | Raise e => e = ZeroDivisionError /\ n_p Examples.at_rest = 0%Z
     end.
Proof.
  assert (H : forall x, 0 <= tau_M_lim Examples.at_rest x)
    by (intros x; simpl; lra).
  split; [exact H |].
  apply (limited_torque_shrinks Examples.at_rest 5 0 1 H).
Defined.

Lemma update_step (self : t) (a : FieldWeakening.args) :
  0 < k_fw self ->
  FieldWeakening.margin self a ->
  i_sd_ref self <= i_sd_ref (FieldWeakening.step self a)
  \/ i_sd_ref (FieldWeakening.step self a)
     = i_sd_mtpa self (np_abs (FieldWeakening.tau_M_ref_lim a)).
Proof.
  intros Hk [HT Hu].
  unfold FieldWeakening.step, update. cbn [i_sd_ref set_i_sd_ref].
  match goal with
  | |- context [np_clip ?x ?lo ?hi] =>
      destruct (np_clip_cases x lo hi) as [-> | [-> _]];
      [right; reflexivity | left]
  end.
  eapply Rle_trans; [| apply Rmax_l].
  assert (0 < FieldWeakening.T_s a * k_fw self)
    by (apply Rmult_lt_0_compat; assumption).
  nra.
Qed.

(** C7.  Along any sequence of [update] calls made with a positive sampling
    period and a positive field-weakening gain, while the voltage reference
    stays below [u_s_max], each call leaves the d-axis state no smaller than
    it found it, unless the clamp caps it at the MTPA value. *)
Theorem field_weakening_monotone (self : t) (l : list FieldWeakening.args) :
  0 < k_fw self ->
  Forall (FieldWeakening.margin self) l ->
  FieldWeakening.nondecreasing_until_capped self l.
Proof.
  revert self. induction l as [| a r IH]; intros self Hk Hall.
  - exact I.
  - inversion Hall as [| ? ? Ha Hr]; subst.
    cbn [FieldWeakening.nondecreasing_until_capped]. split.
    + apply update_step; assumption.
    + apply IH; [exact Hk |].
      eapply Forall_impl; [| exact Hr]. intros b Hb. exact Hb.
Qed.

Lemma Cabs_zero : Cabs (RtoC 0) = 0.
Proof.
  unfold Cabs; simpl. replace (0 * 0 + 0 * 0) with 0 by ring. apply sqrt_0.
Qed.

Lemma field_weakening_monotone_witness :
  FieldWeakening.nondecreasing_until_capped Examples.at_rest
    [FieldWeakening.mk 1 0 (RtoC 0) 1; FieldWeakening.mk 1 0 (RtoC 0) 1].
Proof.
  assert (Hm : FieldWeakening.margin Examples.at_rest
                 (FieldWeakening.mk 1 0 (RtoC 0) 1)).
  { split; simpl; [lra |]. rewrite Cabs_zero. unfold u_s_max; simpl.
    apply Rdiv_lt_0_compat; [lra | apply sqrt3_pos]. }
  apply field_weakening_monotone.
  - simpl. lra.
  - apply Forall_cons; [exact Hm |].
    apply Forall_cons; [exact Hm | apply Forall_nil].
Defined.

End CurrentReferenceFacts.

(** ** The observer *)

Module ObserverFacts.
Import Observer.

Lemma Cabs_sqr (z : C) : Cabs z * Cabs z = re z * re z + im z * im z.
Proof. unfold Cabs. apply sqrt_sqrt. nra. Qed.

Lemma Cabs_pos_norm (z : C) : 0 < Cabs z -> re z * re z + im z * im z <> 0.
Proof. intros H E. unfold Cabs in H. rewrite E, sqrt_0 in H. lra. Qed.

Lemma Cabs_conj (z : C) : Cabs (Cconj z) = Cabs z.
Proof. unfold Cabs; simpl. f_equal. ring. Qed.

(** Where the divisor has a positive modulus the division of the code
    returns the quotient of the specification. *)
Lemma Cdiv_quot (a b : C) :
  0 < Cabs b -> Cdiv a b = Ok (ObserverSpec.Cquot a b).
Proof.
  intros Hb. pose proof (Cabs_pos_norm b Hb) as Hd.
  unfold Cdiv. destruct (Req_dec_T (re b * re b + im b * im b) 0) as [E | _];
    [contradiction |].
  f_equal. unfold ObserverSpec.Cquot, ObserverSpec.Cinv.
  rewrite Cabs_sqr. apply C_eq; simpl; field; assumption.
Qed.

Lemma error_reference (self : t) (i_s : C) :
  error self i_s
  = ObserverSpec.e (L_d self) (L_q self) (psi_f self) (psi_s self) i_s.
Proof.
  unfold error, ObserverSpec.e. apply C_eq; simpl; ring.
Qed.

Lemma aux_flux_reference (self : t) (i_s : C) :
  aux_flux self i_s
  = ObserverSpec.psi_a (L_d self) (L_q self) (psi_f self) i_s.
Proof.
  unfold aux_flux, ObserverSpec.psi_a. apply C_eq; simpl; ring.
Qed.

(** One sensorless step, in full: the flux and the speed follow the
    reference definition and the angle advances by [T_s*w_s] before it is
    wrapped. *)
Lemma update_sensorless (self : t) (k : R -> R) (T_s : R) (u_s i_s : C)
    (w_m_meas : option R) :
  sensorless self = true ->
  k1 self = GainFun k ->
  update self T_s u_s i_s w_m_meas
  = Ok (set_states self
          (np_mod (theta_m self
                   + T_s * ObserverSpec.w_s (L_d self) (L_q self) (psi_f self)
                             (alpha_o self) (psi_s self) (w_m self) i_s
                   + PI) (2 * PI) - PI)
          (ObserverSpec.w_m_next (L_d self) (L_q self) (psi_f self)
             (alpha_o self) (psi_s self) (w_m self) T_s i_s)
          (ObserverSpec.psi_s_next (R_s self) (L_d self) (L_q self)
             (psi_f self) (alpha_o self) k (psi_s self) (w_m self)
             T_s u_s i_s)).
Proof.
  intros Hs Hk. unfold update. rewrite Hs, Hk. cbn [call_gain bind].
  rewrite error_reference, aux_flux_reference.
  unfold ObserverSpec.psi_s_next, ObserverSpec.w_m_next, ObserverSpec.w_s,
    ObserverSpec.k2, ObserverSpec.eps, ObserverSpec.k1.
  set (e := ObserverSpec.e _ _ _ _ _).
  set (psi_a := ObserverSpec.psi_a _ _ _ _).
  destruct (Rgt_dec (Cabs psi_a) 0) as [Hpos | Hzero];
    destruct (Rlt_dec 0 (Cabs psi_a)) as [Hpos' | Hzero']; try lra.
  - rewrite (Cdiv_quot _ (Cconj psi_a)) by (rewrite Cabs_conj; lra).
    rewrite (Cdiv_quot e psi_a) by lra.
    cbn [bind gain_mul]. f_equal. f_equal. ring.
  - cbn [bind gain_mul]. f_equal. f_equal. ring.
Qed.

(** C1.  In sensorless mode, with a gain function [k], every call to
    [update] returns; the residual and the auxiliary flux it works with are
    those of the reference definition, and the flux and speed estimates it
    leaves are the forward-Euler steps of the reference definition. *)
Theorem update_matches_reference (self : t) (k : R -> R) (T_s : R)
    (u_s i_s : C) (w_m_meas : option R) :
  sensorless self = true ->
  k1 self = GainFun k ->
  error self i_s
  = ObserverSpec.e (L_d self) (L_q self) (psi_f self) (psi_s self) i_s
  /\ aux_flux self i_s
     = ObserverSpec.psi_a (L_d self) (L_q self) (psi_f self) i_s
  /\ exists self',
       update self T_s u_s i_s w_m_meas = Ok self'
       /\ psi_s self'
          = ObserverSpec.psi_s_next (R_s self) (L_d self) (L_q self)
              (psi_f self) (alpha_o self) k (psi_s self) (w_m self)
              T_s u_s i_s
       /\ w_m self'
          = ObserverSpec.w_m_next (L_d self) (L_q self) (psi_f self)
              (alpha_o self) (psi_s self) (w_m self) T_s i_s.
Proof.
  intros Hs Hk.
  split; [apply error_reference |].
  split; [apply aux_flux_reference |].
  eexists. split; [apply (update_sensorless self k); assumption |].
  split; reflexivity.
Qed.

Lemma update_matches_reference_witness :
  exists self',
    update Examples.observer 1 (RtoC 0) (RtoC 0) None = Ok self'
    /\ psi_s self'
       = ObserverSpec.psi_s_next 1 1 1 1 1
           (fun w_m => 0.25 * 1 * (1 + 1) / (1 * 1) + 0.2 * np_abs w_m)
           (RtoC 1) 0 1 (RtoC 0) (RtoC 0)
    /\ w_m self' = ObserverSpec.w_m_next 1 1 1 1 (RtoC 1) 0 1 (RtoC 0).
Proof.
  exact (proj2 (proj2
    (update_matches_reference Examples.observer _ 1 (RtoC 0) (RtoC 0) None
       eq_refl eq_refl))).
Defined.

(** The example observer is the one the constructor builds. *)
Lemma init_observer_example :
  init Examples.par 1 None true = Ok Examples.observer.
Proof.
  unfold init. cbn [ModelPars.R_s ModelPars.L_d ModelPars.L_q ModelPars.psi_f
                    Examples.par].
  rewrite fdiv_ok by lra. reflexivity.
Qed.

(** C8 fails on the code: constructing an observer with [sensorless=False]
    and no gain raises, because the default gain is a function and
    [0*self.k1] multiplies it by a number. *)
Theorem init_sensored_raises (par : ModelPars.t) (alpha_o : R) :
  init par alpha_o None false = Raise TypeError.
Proof. reflexivity. Qed.

(** A gain function passed by the caller fares no better, at construction
    or, were the object built some other way, at the first [update], where
    [self.k1] is multiplied without being called. *)
Lemma init_sensored_callable_raises (par : ModelPars.t) (alpha_o : R)
    (k : R -> R) :
  init par alpha_o (Some (GainFun k)) false = Raise TypeError.
Proof. reflexivity. Qed.

Lemma update_sensored_callable_raises (self : t) (k : R -> R) (T_s : R)
    (u_s i_s : C) (w_m_meas : option R) :
  sensorless self = false ->
  k1 self = GainFun k ->
  update self T_s u_s i_s w_m_meas = Raise TypeError.
Proof.
  intros Hs Hk. unfold update. rewrite Hs, Hk.
  destruct w_m_meas; reflexivity.
Qed.

End ObserverFacts.

(** ** The rotor angle *)

Lemma np_mod_range (x y : R) : 0 < y -> 0 <= np_mod x y < y.
Proof.
  intros Hy. unfold np_mod.
  pose proof (Zfloor_bound (x / y)) as [Hlo Hhi].
  assert (Hx : x = x / y * y) by (field; lra).
  split.
  - assert (IZR (Zfloor (x / y)) * y <= x / y * y)
      by (apply Rmult_le_compat_r; lra).
    lra.
  - assert (x / y * y < (IZR (Zfloor (x / y)) + 1) * y)
      by (apply Rmult_lt_compat_r; lra).
    lra.
Qed.

Lemma wrap_range (x : R) : - PI <= np_mod (x + PI) (2 * PI) - PI < PI.
Proof.
  pose proof PI_RGT_0 as Hpi.
  pose proof (np_mod_range (x + PI) (2 * PI)) as H. lra.
Qed.

(** The range with both ends closed, the one that also holds when the
    remainder rounds to the modulus. *)
Lemma wrap_range_closed (x : R) :
  - PI <= np_mod (x + PI) (2 * PI) - PI <= PI.
Proof. pose proof (wrap_range x) as H. lra. Qed.

Lemma wrap_pi : np_mod (PI + PI) (2 * PI) - PI = - PI.
Proof.
  pose proof PI_RGT_0 as Hpi. unfold np_mod.
  replace ((PI + PI) / (2 * PI)) with (IZR 1) by (field; lra).
  rewrite ZfloorZ. lra.
Qed.

(** ** The control loop *)

Module VectorCtrlFacts.
Import VectorCtrl.

Section WithCollaborators.
Context `{Collaborators}.

Ltac in_cases :=
  repeat match goal with
  | H : In _ (_ :: _) |- _ => destruct H as [<- | H]
  | H : In _ [] |- _ => destruct H
  end.

Ltac step_run :=
  cbv beta iota zeta delta
    [run call bindM get put emit lift retM speed_ctrl_output
     current_ref_output current_ctrl_output save observer_update
     speed_ctrl_update current_ref_update current_ctrl_update clock_update
     pwm_call self trace app];
  cbn [fst snd speed_ctrl current_ref current_ctrl observer sensorless n_p
       T_s pwm clock data w_m_ref
       set_speed_ctrl set_current_ref set_current_ctrl set_observer set_pwm
       set_clock set_data].

(** The ways an invocation can end: before any call on a part, in
    [current_ref.output], in [observer.update], or after the last call. *)
Lemma run_cases (s : t) (mdl : Drive.t) :
  (exists e, run s mdl = (Raise e, mkFrame s []))
  \/ (exists e s',
        run s mdl
        = (Raise e,
           mkFrame s' [SpeedCtrlOutput (speed_ctrl s);
                       CurrentRefOutput (current_ref s)]))
  \/ (exists e s' d,
        sensorless s = true /\
        run s mdl
        = (Raise e,
           mkFrame s' [SpeedCtrlOutput (speed_ctrl s);
                       CurrentRefOutput (current_ref s);
                       CurrentCtrlOutput (current_ctrl s);
                       Save d; ObserverUpdate]))
  \/ (exists r s' d,
        run s mdl = (Ok r, mkFrame s' (full_trace s d))
        /\ one_tick s s' d).
Proof.
  unfold full_trace. step_run.
  destruct (get_states s mdl) as [[w_m theta_m] | e] eqn:Est.
  2:{ left. eauto. }
  step_run.
  destruct (fdiv (w_m_ref s (Clock_t (clock s))) (IZR (n_p s)))
    as [w_M_ref | e].
  2:{ left. eauto. }
  step_run.
  destruct (fdiv w_m (IZR (n_p s))) as [w_M | e].
  2:{ left. eauto. }
  step_run.
  destruct (CurrentReference.output _ _ _ _)
    as [[[i_s_ref tau_lim] cr] | e] eqn:Eout.
  2:{ right; left. eauto. }
  pose proof (CurrentReferenceFacts.output_same_object _ _ _ _ _ _ Eout).
  subst cr. step_run.
  destruct (sensorless s) eqn:Hs.
  - step_run. destruct (observer s) as [o |].
    + step_run. destruct (Observer.update _ _ _ _ _) as [o' | e].
      * right; right; right. step_run.
        do 3 eexists. split; [reflexivity |].
        exists w_M_ref, w_M. cbn. auto.
      * right; right; left. eauto 6.
    + right; right; left. step_run. eauto 6.
  - right; right; right. step_run.
    do 3 eexists. split; [reflexivity |].
    exists w_M_ref, w_M. cbn. auto.
Qed.

(** An invocation returns when the pole-pair numbers are not zero and, in
    sensorless mode, the observer is a sensorless one with a gain function. *)
Lemma run_returns (s : t) (mdl : Drive.t) :
  n_p s <> 0%Z ->
  CurrentReference.n_p (current_ref s) <> 0%Z ->
  (sensorless s = true ->
   exists o k, observer s = Some o /\ Observer.sensorless o = true
               /\ Observer.k1 o = GainFun k) ->
  returns (fst (run s mdl)).
Proof.
  intros Hn Hcr Hobs. apply not_0_IZR in Hn.
  step_run. unfold get_states.
  destruct (sensorless s) eqn:Hs.
  - destruct (Hobs eq_refl) as [o [k [Ho [Hso Hk]]]].
    rewrite Ho. step_run. rewrite !fdiv_ok by assumption. step_run.
    destruct (CurrentReferenceFacts.output_returns (current_ref s)
                (fst (SpeedCtrl_output (speed_ctrl s)
                        (w_m_ref s (Clock_t (clock s)) / IZR (n_p s))
                        (Observer.w_m o / IZR (n_p s))))
                (Observer.w_m o) (Drive.meas_dc_voltage mdl)
                (or_introl Hcr)) as [[[i_s_ref tau_lim] cr] ->].
    step_run. rewrite Ho. step_run.
    rewrite (ObserverFacts.update_sensorless o k) by assumption.
    step_run. eexists; reflexivity.
  - step_run. rewrite !fdiv_ok by assumption. step_run.
    destruct (CurrentReferenceFacts.output_returns (current_ref s)
                (fst (SpeedCtrl_output (speed_ctrl s)
                        (w_m_ref s (Clock_t (clock s)) / IZR (n_p s))
                        (IZR (n_p s) * Drive.meas_speed mdl / IZR (n_p s))))
                (IZR (n_p s) * Drive.meas_speed mdl)
                (Drive.meas_dc_voltage mdl)
                (or_introl Hcr)) as [[[i_s_ref tau_lim] cr] ->].
    step_run. eexists; reflexivity.
Qed.

(** The object [__init__] builds, for a machine with pole pairs and
    inductances, completes every invocation. *)
Lemma init_then_run (par : ModelPars.t) (ref : CurrentReferencePars.t)
    (T_s : R) (sensorless : bool) :
  ModelPars.n_p par <> 0%Z ->
  ModelPars.L_d par * ModelPars.L_q par <> 0 ->
  exists s,
    init par ref T_s sensorless = Ok s
    /\ forall mdl, returns (fst (run s mdl)).
Proof.
  intros Hn HL. unfold init. destruct sensorless.
  - unfold Observer.init. rewrite fdiv_ok by assumption. cbn [bind fst snd].
    eexists. split; [reflexivity |]. intros mdl.
    apply run_returns; cbn; try assumption.
    intros _. do 2 eexists. repeat split.
  - cbn [bind]. eexists. split; [reflexivity |]. intros mdl.
    apply run_returns; cbn; try assumption. discriminate.
Qed.

(** The reading of a record is not vacuous: an output call made after an
    update call is seen. *)
Lemma outputs_before_updates_rejects (on : SpeedCtrl) :
  outputs_before_updates [SpeedCtrlUpdate; SpeedCtrlOutput on] = false.
Proof. reflexivity. Qed.

(** C2.  In the record of one invocation no output call comes after an
    update call, every output call is made on the part as the invocation
    found it, that is, as the updates of the previous invocation left it,
    and an invocation that returns has made, in this order, the three output
    calls, the logging call, the update calls and the modulator call; the
    reference and the limited torque it logs are the output of the generator
    as the invocation found it, and the parts it leaves are the updates of
    the parts that produced the outputs. *)
Theorem outputs_precede_updates (s : t) (mdl : Drive.t) :
  outputs_before_updates (trace (snd (run s mdl))) = true
  /\ outputs_made_on s (trace (snd (run s mdl)))
  /\ match fst (run s mdl) with
     | Ok _ =>
         exists d,
           trace (snd (run s mdl)) = full_trace s d
           /\ one_tick s (self (snd (run s mdl))) d
     | Raise _ => True
     end.
Proof.
  destruct (run_cases s mdl)
    as [[e ->] | [[e [s' ->]] | [[e [s' [d [Hs ->]]]]
                                | [r [s' [d [-> Htick]]]]]]];
    cbn [fst snd trace self].
  - repeat split. intros ev [].
  - repeat split. intros ev Hin. in_cases; reflexivity.
  - repeat split. intros ev Hin. in_cases; try reflexivity; exact I.
  - unfold full_trace. destruct (sensorless s); cbn [app].
    + split; [reflexivity |]. split; [| eauto].
      intros ev Hin. in_cases; try reflexivity; exact I.
    + split; [reflexivity |]. split; [| eauto].
      intros ev Hin. in_cases; try reflexivity; exact I.
Qed.

End WithCollaborators.
End VectorCtrlFacts.

(** ** The rotor angle after an update *)

Module AngleFacts.

(** C4, as the code has it.  The angle is wrapped into [-PI, PI], both
    ends included: the observer leaves its angle there whenever [update]
    returns, and in sensored mode the loop always resolves the scaled
    measured position to an angle in it.  The lower end is reached, by an
    angle that advances to [PI] exactly; the upper end is not excluded,
    because the remainder taken by the wrapping can round to [2*PI]. *)
Theorem angle_wrapped :
  (forall (self : Observer.t) (T_s : R) (u_s i_s : C) (w_m : option R),
      match Observer.update self T_s u_s i_s w_m with
      | Ok self' => - PI <= Observer.theta_m self' <= PI
      | Raise _ => True
      end)
  /\ (forall (X : Collaborators) (s : VectorCtrl.t) (mdl : Drive.t),
        VectorCtrl.sensorless s = false ->
        exists w_m theta_m,
          VectorCtrl.get_states s mdl = Ok (w_m, theta_m)
          /\ - PI <= theta_m <= PI).
Proof.
  split.
  - intros self T_s u_s i_s w_m. unfold Observer.update.
    destruct (Observer.sensorless self).
    + destruct (call_gain _ _) as [k1 | e]; [| exact I]. cbn [bind].
      destruct (if Rgt_dec _ 0 then Cdiv _ _ else Ok (RtoC k1)) as [k2 | e];
        [| exact I]. cbn [bind].
      destruct (if Rgt_dec _ 0 then _ else Ok 0) as [eps | e]; [| exact I].
      cbn [bind gain_mul Observer.theta_m Observer.set_states].
      apply wrap_range_closed.
    + destruct w_m as [w |]; [| exact I]. cbn [bind].
      destruct (gain_mul _ _) as [k1_e | e]; [| exact I].
      cbn [bind Observer.theta_m Observer.set_states].
      apply wrap_range_closed.
  - intros X s mdl Hs. unfold VectorCtrl.get_states. rewrite Hs.
    do 2 eexists. split; [reflexivity | apply wrap_range_closed].
Qed.

(** The example control system is the one the constructor builds. *)
Lemma init_sensored_example :
  @VectorCtrl.init Examples.idle Examples.par Examples.ref 1 false
  = Ok Examples.sensored.
Proof. reflexivity. Qed.

Lemma angle_wrapped_witness :
  exists w_m theta_m,
    VectorCtrl.get_states Examples.sensored Examples.drive = Ok (w_m, theta_m)
    /\ - PI <= theta_m <= PI.
Proof.
  exact (proj2 angle_wrapped Examples.idle Examples.sensored Examples.drive
           eq_refl).
Defined.

Lemma example_w_s :
  ObserverSpec.w_s 1 1 1 1 (RtoC 1) 0 (mkC 0 (- PI / 2)) = PI.
Proof.
  unfold ObserverSpec.w_s, ObserverSpec.eps.
  assert (Ha : ObserverSpec.psi_a 1 1 1 (mkC 0 (- PI / 2)) = mkC 1 0).
  { unfold ObserverSpec.psi_a. apply C_eq; simpl; ring. }
  rewrite Ha.
  assert (Hc : Cabs (mkC 1 0) = 1).
  { unfold Cabs; simpl. replace (1 * 1 + 0 * 0) with 1 by ring.
    apply sqrt_1. }
  rewrite Hc. destruct (Rlt_dec 0 1) as [_ | Hn]; [| lra].
  unfold ObserverSpec.Cquot, ObserverSpec.Cinv. rewrite Hc.
  unfold ObserverSpec.e. simpl. field.
Qed.

(** C4, as stated, fails: from its initial state, one step of the observer
    with the current [-j*PI/2] turns the angle by [PI], which wraps to
    [-PI], outside (-PI, PI]. *)
Lemma angle_reaches_minus_pi :
  exists self',
    Observer.update Examples.observer 1 (RtoC 0) (mkC 0 (- PI / 2)) None
    = Ok self'
    /\ Observer.theta_m self' = - PI
    /\ ~ (- PI < Observer.theta_m self' <= PI).
Proof.
  eexists. split.
  - apply (ObserverFacts.update_sensorless Examples.observer _ 1 (RtoC 0)
             (mkC 0 (- PI / 2)) None eq_refl eq_refl).
  - cbn [Observer.theta_m Observer.set_states Examples.observer
         Observer.L_d Observer.L_q Observer.psi_f Observer.alpha_o
         Observer.psi_s Observer.w_m].
    rewrite example_w_s.
    replace (0 + 1 * PI + PI) with (PI + PI) by ring.
    rewrite wrap_pi. split; [reflexivity | lra].
Qed.

End AngleFacts.

(** * Further properties of the code *)

(** ** More arithmetic of the helpers *)

Lemma np_sign_opp (x : R) : np_sign (- x) = - np_sign x.
Proof. unfold np_sign; case_dec; lra. Qed.

Lemma np_abs_opp (x : R) : np_abs (- x) = np_abs x.
Proof. apply Rabs_Ropp. Qed.

(** Clamping to a bound [m >= 0] leaves the smaller of the magnitude and
    the bound. *)
Lemma clamp_abs (x m : R) :
  0 <= m ->
  Rabs (if Rgt_dec (np_abs x) m then np_sign x * m else x)
  = Rmin (Rabs x) m.
Proof.
  intros Hm. unfold np_abs.
  destruct (Rgt_dec (Rabs x) m) as [Hgt | Hle].
  - rewrite Rmin_right by lra.
    rewrite Rabs_mult, (Rabs_right m) by lra.
    assert (Hs : Rabs (np_sign x) = 1).
    { unfold np_sign. destruct (Rlt_dec x 0).
      - rewrite Rabs_left; lra.
      - destruct (Rlt_dec 0 x).
        + apply Rabs_right; lra.
        + exfalso. replace x with 0 in Hgt by lra.
          rewrite Rabs_R0 in Hgt. lra. }
    rewrite Hs. ring.
  - rewrite Rmin_left by lra. reflexivity.
Qed.

Lemma clamp_opp (x m : R) :
  (if Rgt_dec (np_abs (- x)) m then np_sign (- x) * m else - x)
  = - (if Rgt_dec (np_abs x) m then np_sign x * m else x).
Proof.
  rewrite np_abs_opp, np_sign_opp.
  destruct (Rgt_dec (np_abs x) m); ring.
Qed.

Lemma np_clip_upper (x lo hi : R) : np_clip x lo hi <= hi.
Proof. unfold np_clip. apply Rmin_r. Qed.

Lemma np_clip_lower (x lo hi : R) : lo <= hi -> lo <= np_clip x lo hi.
Proof.
  intros H. unfold np_clip. apply Rmin_glb; [apply Rmax_r | assumption].
Qed.

(** ** More on the current reference generator *)

Module GeneratorFacts.
Import CurrentReference.

(** X1.  With a nonnegative torque-limit table, [limit_torque] returns the
    torque reference cut to the looked-up limit: its magnitude is the
    smaller of the two, its sign is kept, and limiting it again changes
    nothing. *)
Theorem limit_torque_saturates (self : t) (tau_M_ref w_m u_dc : R) :
  (forall x, 0 <= tau_M_lim self x) ->
  exists tau_max tau',
    tau_M_max self w_m u_dc = Ok tau_max
    /\ limit_torque self tau_M_ref w_m u_dc = Ok tau'
    /\ Rabs tau' = Rmin (Rabs tau_M_ref) tau_max
    /\ 0 <= tau' * tau_M_ref
    /\ limit_torque self tau' w_m u_dc = Ok tau'.
Proof.
  intros Hlim.
  destruct (CurrentReferenceFacts.tau_M_max_returns self w_m u_dc) as [x Hx].
  pose proof (Hlim x) as Hm.
  exists (tau_M_lim self x). eexists.
  split; [exact Hx |].
  unfold limit_torque. rewrite Hx. cbn [bind].
  split; [reflexivity |].
  split; [apply clamp_abs; assumption |].
  split.
  - destruct (clamp_scales tau_M_ref (tau_M_lim self x) Hm) as [c [Hc ->]].
    pose proof (pow2_ge_0 tau_M_ref). nra.
  - f_equal.
    pose proof (clamp_bound tau_M_ref (tau_M_lim self x) Hm) as Hb.
    set (tau' := if Rgt_dec (np_abs tau_M_ref) (tau_M_lim self x)
                 then np_sign tau_M_ref * tau_M_lim self x
                 else tau_M_ref) in *.
    unfold np_abs. destruct (Rgt_dec (Rabs tau') (tau_M_lim self x)); [lra |].
    reflexivity.
Qed.

Lemma limit_torque_saturates_witness :
  exists tau_max tau',
    tau_M_max Examples.at_rest 0 1 = Ok tau_max
    /\ limit_torque Examples.at_rest 5 0 1 = Ok tau'
    /\ Rabs tau' = Rmin (Rabs 5) tau_max
    /\ 0 <= tau' * 5
    /\ limit_torque Examples.at_rest tau' 0 1 = Ok tau'.
Proof.
  apply (limit_torque_saturates Examples.at_rest 5 0 1).
  intros x. simpl. lra.
Defined.

Lemma tau_M_max_speed_sign (self : t) (w_m u_dc : R) :
  tau_M_max self (- w_m) u_dc = tau_M_max self w_m u_dc.
Proof. unfold tau_M_max. rewrite np_abs_opp. reflexivity. Qed.

Lemma limit_torque_opp (self : t) (tau_M_ref w_m u_dc : R) :
  limit_torque self (- tau_M_ref) w_m u_dc
  = (tau' <- limit_torque self tau_M_ref w_m u_dc ;; Ok (- tau')).
Proof.
  unfold limit_torque.
  destruct (tau_M_max self w_m u_dc) as [m | e]; [| reflexivity].
  cbn [bind]. rewrite clamp_opp. reflexivity.
Qed.

Lemma i_sq_max_opp (self : t) (tau : R) :
  i_sq_max self (- tau) = i_sq_max self tau.
Proof. unfold i_sq_max. rewrite np_abs_opp. reflexivity. Qed.

Lemma limit_i_sq_opp (i : R) (m : xfloat) :
  limit_i_sq (- i) m = - limit_i_sq i m.
Proof.
  destruct m as [m | |]; try reflexivity.
  rewrite !CurrentReferenceFacts.limit_i_sq_num. apply clamp_opp.
Qed.

Lemma output_tail_opp (self : t) (tau i : R) :
  output_tail self (- tau) (- i)
  = (let '((i_s_ref, tau_lim), s) := output_tail self tau i in
     ((Cconj i_s_ref, - tau_lim), s)).
Proof.
  unfold output_tail. rewrite i_sq_max_opp, limit_i_sq_opp.
  f_equal. f_equal.
  - apply C_eq; simpl; ring.
  - ring.
Qed.

(** X2.  [output] is odd in the torque reference: the opposite torque
    reference gives the conjugate current reference (same d-axis current,
    opposite q-axis current) and the opposite limited torque, and raises
    when the other does. *)
Theorem output_odd (self : t) (tau_M_ref w_m u_dc : R) :
  output self (- tau_M_ref) w_m u_dc
  = (r <- output self tau_M_ref w_m u_dc ;;
     let '((i_s_ref, tau_M_ref_lim), s) := r in
     Ok ((Cconj i_s_ref, - tau_M_ref_lim), s)).
Proof.
  destruct (CurrentReferenceFacts.output_cases self tau_M_ref w_m u_dc)
    as [tau' [Hl [[Hz E] | [[Hz [Hn E]] | [Hz [Hn E]]]]]];
    rewrite E; cbn [bind];
    destruct (CurrentReferenceFacts.output_cases self (- tau_M_ref) w_m u_dc)
      as [tau'' [Hl' [[Hz' E'] | [[Hz' [Hn' E']] | [Hz' [Hn' E']]]]]];
    try contradiction; rewrite E';
    rewrite limit_torque_opp, Hl in Hl'; cbn [bind] in Hl';
    inversion Hl'; subst tau''.
  - replace 0 with (- 0) at 1 by ring. rewrite output_tail_opp.
    destruct (output_tail self tau' 0) as [[i t0] s]. reflexivity.
  - reflexivity.
  - replace (- tau' / (1.5 * IZR (n_p self) * psi_t self))
      with (- (tau' / (1.5 * IZR (n_p self) * psi_t self)))
      by (unfold Rdiv; ring).
    rewrite output_tail_opp.
    destruct (output_tail self tau' _) as [[i t0] s]. reflexivity.
Qed.

(** X3.  When neither limit is active, [output] passes the torque reference
    on unchanged: with a torque reference within the torque limit, and a
    q-axis current within its bound, or a bound that is not a number, the
    limited torque is the torque reference and the q-axis current is the
    torque reference divided by [1.5*n_p*psi_t]. *)
Theorem output_unlimited (self : t) (tau_M_ref w_m u_dc : R) :
  n_p self <> 0%Z ->
  psi_t self <> 0 ->
  (exists tau_max,
      tau_M_max self w_m u_dc = Ok tau_max /\ Rabs tau_M_ref <= tau_max) ->
  (i_sq_max self tau_M_ref = NaN
   \/ exists m, i_sq_max self tau_M_ref = Num m
                /\ Rabs (tau_M_ref / (1.5 * IZR (n_p self) * psi_t self))
                   <= m) ->
  output self tau_M_ref w_m u_dc
  = Ok ((RtoC (i_sd_ref self)
         + Ci * RtoC (tau_M_ref / (1.5 * IZR (n_p self) * psi_t self)))%C,
        tau_M_ref, self).
Proof.
  intros Hn Hp [tau_max [Hmax Hle]] Hq.
  assert (Hl : limit_torque self tau_M_ref w_m u_dc = Ok tau_M_ref).
  { unfold limit_torque. rewrite Hmax. cbn [bind]. unfold np_abs.
    destruct (Rgt_dec (Rabs tau_M_ref) tau_max); [lra | reflexivity]. }
  destruct (CurrentReferenceFacts.output_cases self tau_M_ref w_m u_dc)
    as [tau' [Hl' [[Hz _] | [[_ [Hn' _]] | [_ [_ ->]]]]]];
    try contradiction.
  rewrite Hl in Hl'. inversion Hl'; subst tau'; clear Hl'.
  unfold output_tail.
  assert (Hlim : limit_i_sq (tau_M_ref / (1.5 * IZR (n_p self) * psi_t self))
                   (i_sq_max self tau_M_ref)
                 = tau_M_ref / (1.5 * IZR (n_p self) * psi_t self)).
  { destruct Hq as [-> | [m [-> Hm]]].
    - apply CurrentReferenceFacts.limit_i_sq_nan.
    - rewrite CurrentReferenceFacts.limit_i_sq_num. unfold np_abs.
      destruct (Rgt_dec _ m); [lra | reflexivity]. }
  rewrite Hlim. f_equal. f_equal. f_equal.
  apply not_0_IZR in Hn. rewrite three_halves. field. split; [assumption | lra].
Qed.

Lemma at_rest_bound : i_sq_max Examples.at_rest 1 = Num 1.
Proof.
  assert (H0 : Rabs 0 <= 1) by (rewrite Rabs_R0; lra).
  rewrite CurrentReferenceFacts.i_sq_max_num;
    try (simpl; replace (1 * (1 * 1) - 0 * (0 * 1)) with 1 by ring; lra).
  simpl. replace (1 * (1 * 1) - 0 * (0 * 1)) with 1 by ring.
  rewrite sqrt_1, Rmin_left by lra. reflexivity.
Qed.

Lemma output_unlimited_witness :
  output Examples.at_rest 1 0 1
  = Ok ((RtoC (i_sd_ref Examples.at_rest)
         + Ci * RtoC (1 / (1.5 * IZR (n_p Examples.at_rest)
                           * psi_t Examples.at_rest)))%C,
        1, Examples.at_rest).
Proof.
  apply output_unlimited.
  - simpl. lia.
  - unfold psi_t; simpl. lra.
  - exists 1. split.
    + apply CurrentReferenceFacts.tau_M_max_zero_speed.
    + rewrite Rabs_R1. lra.
  - right. exists 1. split; [apply at_rest_bound |].
    unfold psi_t; simpl. rewrite three_halves.
    rewrite Rabs_right; lra.
Defined.

(** What a sequence of [update] calls leaves untouched. *)
Lemma after_frame (self : t) (l : list FieldWeakening.args) :
  n_p (GeneratorRuns.after self l) = n_p self
  /\ i_s_max (GeneratorRuns.after self l) = i_s_max self
  /\ i_sd_mtpa (GeneratorRuns.after self l) = i_sd_mtpa self
  /\ i_sd_lim (GeneratorRuns.after self l) = i_sd_lim self.
Proof.
  revert self. induction l as [| a r IH]; intros self.
  - repeat split.
  - unfold GeneratorRuns.after in *. cbn [fold_left].
    destruct (IH (FieldWeakening.step self a)) as [-> [-> [-> ->]]].
    repeat split.
Qed.

Lemma step_within_limit (self : t) (a : FieldWeakening.args) :
  GeneratorRuns.tables_within_limit self ->
  Rabs (i_sd_ref (FieldWeakening.step self a)) <= i_s_max self.
Proof.
  intros Ht.
  destruct (Ht (np_abs (FieldWeakening.tau_M_ref_lim a))) as [Hlo [Hmid Hhi]].
  unfold FieldWeakening.step, update. cbn [i_sd_ref set_i_sd_ref].
  match goal with
  | |- Rabs (np_clip ?x ?lo ?hi) <= _ =>
      pose proof (np_clip_upper x lo hi);
      pose proof (np_clip_lower x lo hi Hmid)
  end.
  apply Rabs_le. lra.
Qed.

Lemma after_within_limit (self : t) (l : list FieldWeakening.args) :
  GeneratorRuns.tables_within_limit self ->
  Rabs (i_sd_ref self) <= i_s_max self ->
  Rabs (i_sd_ref (GeneratorRuns.after self l)) <= i_s_max self.
Proof.
  revert self. induction l as [| a r IH]; intros self Ht Hs.
  - exact Hs.
  - unfold GeneratorRuns.after in *. cbn [fold_left].
    exact (IH (FieldWeakening.step self a) Ht (step_within_limit self a Ht)).
Qed.

(** X4.  A generator built by the constructor from lookup tables that stay
    within the current limit never commands more than the current limit,
    whatever [update] calls it has received: the clamp of [update] keeps
    the d-axis state in the range where [output] limits the q-axis
    current.  A call only fails to return for a machine with no pole
    pairs. *)
Theorem constructed_generator_within_limit (par : ModelPars.t)
    (ref : CurrentReferencePars.t) (l : list FieldWeakening.args)
    (tau_M_ref w_m u_dc : R) :
  GeneratorRuns.tables_within_limit (init par ref) ->
  match output (GeneratorRuns.after (init par ref) l) tau_M_ref w_m u_dc with
  | Ok ((i_s_ref, _), _) => Cabs i_s_ref <= CurrentReferencePars.i_s_max ref
  | Raise e => e = ZeroDivisionError /\ ModelPars.n_p par = 0%Z
  end.
Proof.
  intros Ht.
  set (s0 := init par ref) in *. set (s := GeneratorRuns.after s0 l).
  destruct (after_frame s0 l) as [Hn [Hi [Hm _]]]. fold s in Hn, Hi, Hm.
  assert (H0 : Rabs (i_sd_ref s0) <= i_s_max s0).
  { cbn. rewrite Rabs_R0. destruct (Ht 0) as [? [? ?]].
    change (CurrentReferencePars.i_s_max ref) with (i_s_max s0). lra. }
  pose proof (after_within_limit s0 l Ht H0) as Hs. fold s in Hs.
  rewrite <- Hi in Hs.
  assert (Hmt : forall tau, Rabs (i_sd_mtpa s (np_abs tau)) <= i_s_max s).
  { intros tau. rewrite Hm, Hi.
    destruct (Ht (np_abs tau)) as [? [? ?]]. apply Rabs_le. lra. }
  change (CurrentReferencePars.i_s_max ref) with (i_s_max s0).
  change (ModelPars.n_p par) with (n_p s0).
  rewrite <- Hi, <- Hn.
  destruct (CurrentReferenceFacts.output_cases s tau_M_ref w_m u_dc)
    as [tau' [_ [[_ ->] | [[_ [Hz ->]] | [_ [_ ->]]]]]].
  - pose proof (CurrentReferenceFacts.output_tail_within_limit s tau' 0
                  Hs (Hmt tau')) as Hb.
    destruct (output_tail s tau' 0) as [[i ?] ?]. exact Hb.
  - split; [reflexivity | assumption].
  - pose proof (CurrentReferenceFacts.output_tail_within_limit s tau'
                  (tau' / (1.5 * IZR (n_p s) * psi_t s)) Hs (Hmt tau'))
      as Hb.
    destruct (output_tail s tau' _) as [[i ?] ?]. exact Hb.
Qed.

Lemma constructed_generator_within_limit_witness :
  match
    output
      (GeneratorRuns.after (init Examples.par Examples.ref)
         [FieldWeakening.mk 1 0 (RtoC 0) 1; FieldWeakening.mk 1 2 (RtoC 3) 1])
      5 1 1
  with
  | Ok ((i_s_ref, _), _) =>
      Cabs i_s_ref <= CurrentReferencePars.i_s_max Examples.ref
  | Raise e => e = ZeroDivisionError /\ ModelPars.n_p Examples.par = 0%Z
  end.
Proof.
  apply constructed_generator_within_limit.
  intros tau. simpl. lra.
Defined.

Lemma step_down (self : t) (a : FieldWeakening.args) :
  0 < k_fw self ->
  GeneratorRuns.overvoltage self a ->
  i_sd_lim self (np_abs (FieldWeakening.tau_M_ref_lim a))
  <= i_sd_mtpa self (np_abs (FieldWeakening.tau_M_ref_lim a)) ->
  i_sd_ref (FieldWeakening.step self a) <= i_sd_ref self
  \/ i_sd_ref (FieldWeakening.step self a)
     = i_sd_lim self (np_abs (FieldWeakening.tau_M_ref_lim a)).
Proof.
  intros Hk [HT Hu] Hclamp.
  unfold FieldWeakening.step, update. cbn [i_sd_ref set_i_sd_ref].
  assert (Hprod : 0 < FieldWeakening.T_s a * k_fw self)
    by (apply Rmult_lt_0_compat; assumption).
  set (x := i_sd_ref self + _).
  assert (Hx : x < i_sd_ref self) by (unfold x; nra).
  unfold np_clip.
  set (lo := i_sd_lim self _) in *. set (hi := i_sd_mtpa self _) in *.
  destruct (Rle_dec lo x) as [Hlo | Hlo].
  - left. rewrite Rmax_left by assumption.
    eapply Rle_trans; [apply Rmin_l | lra].
  - right. rewrite Rmax_right by lra. apply Rmin_left. assumption.
Qed.

(** X5.  The mirror of the field-weakening law: along any sequence of
    [update] calls made while the voltage reference exceeds [u_s_max], with
    a positive sampling period and gain and a clamp whose lower bound is
    below its upper bound, each call leaves the d-axis state no larger than
    it found it, unless the clamp lifts it to its lower bound. *)
Theorem field_weakening_decreases (self : t) (l : list FieldWeakening.args) :
  0 < k_fw self ->
  (forall tau, i_sd_lim self tau <= i_sd_mtpa self tau) ->
  Forall (GeneratorRuns.overvoltage self) l ->
  GeneratorRuns.nonincreasing_until_floored self l.
Proof.
  revert self. induction l as [| a r IH]; intros self Hk Hc Hall.
  - exact I.
  - inversion Hall as [| ? ? Ha Hr]; subst.
    cbn [GeneratorRuns.nonincreasing_until_floored]. split.
    + apply step_down; [assumption | assumption | apply Hc].
    + apply IH; [exact Hk | exact Hc |].
      eapply Forall_impl; [| exact Hr]. intros b Hb. exact Hb.
Qed.

Lemma Cabs_one : Cabs (RtoC 1) = 1.
Proof.
  unfold Cabs; simpl. replace (1 * 1 + 0 * 0) with 1 by ring. apply sqrt_1.
Qed.

Lemma field_weakening_decreases_witness :
  GeneratorRuns.nonincreasing_until_floored Examples.at_rest
    [FieldWeakening.mk 1 0 (RtoC 1) 0; FieldWeakening.mk 1 0 (RtoC 1) 0].
Proof.
  assert (Hm : GeneratorRuns.overvoltage Examples.at_rest
                 (FieldWeakening.mk 1 0 (RtoC 1) 0)).
  { split; simpl; [lra |]. rewrite Cabs_one. unfold u_s_max; simpl.
    unfold Rdiv. rewrite Rmult_0_r, Rmult_0_l. lra. }
  apply field_weakening_decreases.
  - simpl. lra.
  - intros tau. simpl. lra.
  - apply Forall_cons; [exact Hm |].
    apply Forall_cons; [exact Hm | apply Forall_nil].
Defined.

End GeneratorFacts.

(** ** More on the rotor angle *)

Lemma wrap_fixed (x : R) :
  - PI <= x < PI -> np_mod (x + PI) (2 * PI) - PI = x.
Proof.
  intros [Hlo Hhi]. pose proof PI_RGT_0 as Hpi. unfold np_mod.
  assert (Hf : Zfloor ((x + PI) / (2 * PI)) = 0%Z).
  { apply Zfloor_eq. split.
    - apply Rmult_le_pos; [lra |]. left. apply Rinv_0_lt_compat. lra.
    - apply Rmult_lt_reg_r with (2 * PI); [lra |].
      unfold Rdiv. rewrite Rmult_assoc, Rinv_l by lra. lra. }
  rewrite Hf. lra.
Qed.

Lemma wrap_congruent (x : R) :
  exists n : Z, np_mod (x + PI) (2 * PI) - PI = x - 2 * IZR n * PI.
Proof.
  exists (Zfloor ((x + PI) / (2 * PI))). unfold np_mod. ring.
Qed.

Lemma Cexp_i_period (x : R) (n : Z) : Cexp_i (x - 2 * IZR n * PI) = Cexp_i x.
Proof.
  unfold Cexp_i. destruct (Z_le_gt_dec 0 n) as [Hn | Hn].
  - set (k := Z.to_nat n).
    assert (Hk : IZR n = INR k).
    { unfold k. rewrite INR_IZR_INZ, Z2Nat.id by assumption. reflexivity. }
    rewrite Hk.
    rewrite <- (cos_period (x - 2 * INR k * PI) k).
    rewrite <- (sin_period (x - 2 * INR k * PI) k).
    replace (x - 2 * INR k * PI + 2 * INR k * PI) with x by ring.
    reflexivity.
  - set (k := Z.to_nat (- n)).
    assert (Hk : IZR n = - INR k).
    { unfold k. rewrite INR_IZR_INZ, Z2Nat.id by lia.
      rewrite opp_IZR. ring. }
    rewrite Hk.
    replace (x - 2 * - INR k * PI) with (x + 2 * INR k * PI) by ring.
    rewrite cos_period, sin_period. reflexivity.
Qed.

Lemma Cexp_i_wrap (x : R) :
  Cexp_i (np_mod (x + PI) (2 * PI) - PI) = Cexp_i x.
Proof.
  destruct (wrap_congruent x) as [n ->]. apply Cexp_i_period.
Qed.

(** ** More on the observer *)

Module ObserverMore.
Import Observer.

Lemma reference_zero_residual (L_d L_q psi_f alpha_o : R) (psi_s_est : C)
    (w_m_est : R) (i_s : C) :
  ObserverSpec.e L_d L_q psi_f psi_s_est i_s = RtoC 0 ->
  ObserverSpec.eps L_d L_q psi_f psi_s_est i_s = 0
  /\ ObserverSpec.w_s L_d L_q psi_f alpha_o psi_s_est w_m_est i_s = w_m_est.
Proof.
  intros He.
  assert (Heps : ObserverSpec.eps L_d L_q psi_f psi_s_est i_s = 0).
  { unfold ObserverSpec.eps. rewrite He.
    destruct (Rlt_dec 0 _); [| reflexivity].
    unfold ObserverSpec.Cquot. simpl. ring. }
  split; [exact Heps |].
  unfold ObserverSpec.w_s. rewrite Heps. ring.
Qed.

(** The step of an observer whose flux estimate agrees with the current
    model. *)
Lemma update_at_zero_residual (self : t) (k : R -> R) (T_s : R) (u_s i_s : C)
    (w_m_meas : option R) :
  sensorless self = true ->
  k1 self = GainFun k ->
  error self i_s = RtoC 0 ->
  update self T_s u_s i_s w_m_meas
  = Ok (set_states self
          (np_mod (theta_m self + T_s * w_m self + PI) (2 * PI) - PI)
          (w_m self)
          (psi_s self
           + RtoC T_s * (u_s - RtoC (R_s self) * i_s
                         - Ci * RtoC (w_m self) * psi_s self))%C).
Proof.
  intros Hs Hk He.
  rewrite (ObserverFacts.update_sensorless self k) by assumption.
  rewrite ObserverFacts.error_reference in He.
  destruct (reference_zero_residual (L_d self) (L_q self) (psi_f self)
              (alpha_o self) (psi_s self) (w_m self) i_s He) as [Heps Hws].
  rewrite Hws.
  unfold ObserverSpec.w_m_next, ObserverSpec.psi_s_next.
  rewrite Heps, Hws, He.
  f_equal. f_equal.
  - ring.
  - apply C_eq; simpl; ring.
Qed.

(** X6.  No residual, no correction: when the flux estimate of a
    sensorless observer agrees with the current model ([e = 0]), a step
    leaves the speed estimate as it is, turns the angle by [T_s*w_m] and
    integrates the flux along the voltage model alone, whatever the gain
    function. *)
Theorem update_zero_residual (self : t) (k : R -> R) (T_s : R) (u_s i_s : C)
    (w_m_meas : option R) :
  sensorless self = true ->
  k1 self = GainFun k ->
  error self i_s = RtoC 0 ->
  exists self',
    update self T_s u_s i_s w_m_meas = Ok self'
    /\ w_m self' = w_m self
    /\ theta_m self'
       = np_mod (theta_m self + T_s * w_m self + PI) (2 * PI) - PI
    /\ psi_s self'
       = (psi_s self
          + RtoC T_s * (u_s - RtoC (R_s self) * i_s
                        - Ci * RtoC (w_m self) * psi_s self))%C.
Proof.
  intros Hs Hk He. eexists.
  split; [apply (update_at_zero_residual self k); assumption |].
  repeat split.
Qed.

Lemma example_zero_residual : error Examples.observer (RtoC 0) = RtoC 0.
Proof. unfold error. apply C_eq; simpl; ring. Qed.

Lemma update_zero_residual_witness :
  exists self',
    update Examples.observer 1 (RtoC 2) (RtoC 0) None = Ok self'
    /\ w_m self' = w_m Examples.observer
    /\ theta_m self'
       = np_mod (theta_m Examples.observer + 1 * w_m Examples.observer + PI)
           (2 * PI) - PI
    /\ psi_s self'
       = (psi_s Examples.observer
          + RtoC 1 * (RtoC 2 - RtoC (R_s Examples.observer) * RtoC 0
                      - Ci * RtoC (w_m Examples.observer)
                        * psi_s Examples.observer))%C.
Proof.
  exact (update_zero_residual Examples.observer _ 1 (RtoC 2) (RtoC 0) None
           eq_refl eq_refl example_zero_residual).
Defined.

(** X7.  Standstill is an equilibrium: a sensorless observer whose flux
    estimate is the magnet flux, whose speed estimate is zero and whose
    angle is in [-PI, PI), fed with zero voltage and zero current, is left
    exactly as it was.  The object the constructor builds is in that
    state. *)
Theorem standstill_equilibrium (self : t) (k : R -> R) (T_s : R)
    (w_m_meas : option R) :
  sensorless self = true ->
  k1 self = GainFun k ->
  psi_s self = RtoC (psi_f self) ->
  w_m self = 0 ->
  - PI <= theta_m self < PI ->
  update self T_s (RtoC 0) (RtoC 0) w_m_meas = Ok self.
Proof.
  intros Hs Hk Hpsi Hw Hth.
  assert (He : error self (RtoC 0) = RtoC 0).
  { unfold error. rewrite Hpsi. apply C_eq; simpl; ring. }
  rewrite (update_at_zero_residual self k) by assumption.
  f_equal. rewrite Hw, Hpsi.
  replace (theta_m self + T_s * 0) with (theta_m self) by ring.
  rewrite wrap_fixed by assumption.
  destruct self as [R0 Ld Lq pf ao sl g1 g2 th w ps].
  cbn in *. subst w ps. unfold set_states. cbn. f_equal.
  apply C_eq; simpl; ring.
Qed.

Lemma standstill_equilibrium_witness :
  update Examples.observer 1 (RtoC 0) (RtoC 0) None = Ok Examples.observer.
Proof.
  apply (standstill_equilibrium Examples.observer _ 1 None eq_refl eq_refl
           eq_refl eq_refl).
  simpl. pose proof PI_RGT_0. lra.
Defined.

(** X8.  Wrapping does not change the direction the angle stands for: after
    a sensorless step the rotation [exp(j*theta_m)] is the rotation by the
    old angle advanced by [T_s*w_s], and the new angle differs from that
    sum by a whole number of turns. *)
Theorem update_angle_congruent (self : t) (k : R -> R) (T_s : R)
    (u_s i_s : C) (w_m_meas : option R) :
  sensorless self = true ->
  k1 self = GainFun k ->
  let w_s := ObserverSpec.w_s (L_d self) (L_q self) (psi_f self)
               (alpha_o self) (psi_s self) (w_m self) i_s in
  exists self',
    update self T_s u_s i_s w_m_meas = Ok self'
    /\ (exists n : Z,
           theta_m self' = theta_m self + T_s * w_s - 2 * IZR n * PI)
    /\ Cexp_i (theta_m self') = Cexp_i (theta_m self + T_s * w_s).
Proof.
  intros Hs Hk w_s. eexists.
  split; [apply (ObserverFacts.update_sensorless self k); assumption |].
  cbn [theta_m set_states]. fold w_s.
  split; [apply wrap_congruent | apply Cexp_i_wrap].
Qed.

Lemma update_angle_congruent_witness :
  exists self',
    update Examples.observer 1 (RtoC 0) (mkC 0 1) None = Ok self'
    /\ (exists n : Z,
           theta_m self'
           = theta_m Examples.observer
             + 1 * ObserverSpec.w_s 1 1 1 1 (RtoC 1) 0 (mkC 0 1)
             - 2 * IZR n * PI)
    /\ Cexp_i (theta_m self')
       = Cexp_i (theta_m Examples.observer
                 + 1 * ObserverSpec.w_s 1 1 1 1 (RtoC 1) 0 (mkC 0 1)).
Proof.
  exact (update_angle_congruent Examples.observer _ 1 (RtoC 0) (mkC 0 1) None
           eq_refl eq_refl).
Defined.

(** X9.  The sensored mode as it works: with a numeric gain [k] and a
    measured speed [w], a step returns, leaves the speed estimate as it is,
    turns the angle by [T_s*w] and integrates the flux with the gain on the
    residual alone; without a measured speed the step raises. *)
Theorem update_sensored_numeric (self : t) (k T_s : R) (u_s i_s : C) (w : R) :
  sensorless self = false ->
  k1 self = GainNum k ->
  update self T_s u_s i_s (Some w)
  = Ok (set_states self
          (np_mod (theta_m self + T_s * w + PI) (2 * PI) - PI)
          (w_m self)
          (psi_s self
           + RtoC T_s * (u_s - RtoC (R_s self) * i_s
                         - Ci * RtoC w * psi_s self
                         + RtoC k * error self i_s))%C)
  /\ update self T_s u_s i_s None = Raise TypeError.
Proof.
  intros Hs Hk. unfold update. rewrite Hs, Hk. cbn [bind gain_mul].
  split; [| reflexivity].
  f_equal. f_equal.
  - ring.
  - apply C_eq; simpl; ring.
Qed.

Lemma update_sensored_numeric_witness :
  let self := mk 1 1 1 1 1 false (GainNum 1) (GainNum (IZR 0 * 1)) 0 0 (RtoC 1)
  in
  init Examples.par 1 (Some (GainNum 1)) false = Ok self
  /\ update self 1 (RtoC 0) (RtoC 0) (Some 2)
     = Ok (set_states self
             (np_mod (theta_m self + 1 * 2 + PI) (2 * PI) - PI)
             (w_m self)
             (psi_s self
              + RtoC 1 * (RtoC 0 - RtoC (R_s self) * RtoC 0
                          - Ci * RtoC 2 * psi_s self
                          + RtoC 1 * error self (RtoC 0)))%C)
  /\ update self 1 (RtoC 0) (RtoC 0) None = Raise TypeError.
Proof.
  intros self. split; [reflexivity |].
  exact (update_sensored_numeric self 1 1 (RtoC 0) (RtoC 0) 2
           eq_refl eq_refl).
Defined.

(** X10.  A sensorless observer needs a gain function: the constructor
    accepts a number as the gain, and then every step raises, because the
    step calls the gain. *)
Theorem sensorless_numeric_gain_raises (par : ModelPars.t) (alpha_o k : R) :
  exists self,
    init par alpha_o (Some (GainNum k)) true = Ok self
    /\ forall (T_s : R) (u_s i_s : C) (w_m_meas : option R),
         update self T_s u_s i_s w_m_meas = Raise TypeError.
Proof.
  eexists. split; [reflexivity |].
  intros T_s u_s i_s w_m_meas. reflexivity.
Qed.

(** X11.  The constructor with the default gain, in sensorless mode: it
    raises when the product of the inductances is zero, and otherwise
    builds an observer at standstill (zero angle, zero speed, the magnet
    flux) whose every step returns. *)
Theorem init_default_gain (par : ModelPars.t) (alpha_o : R) :
  (ModelPars.L_d par * ModelPars.L_q par = 0 ->
   init par alpha_o None true = Raise ZeroDivisionError)
  /\ (ModelPars.L_d par * ModelPars.L_q par <> 0 ->
      exists self,
        init par alpha_o None true = Ok self
        /\ theta_m self = 0 /\ w_m self = 0
        /\ psi_s self = RtoC (ModelPars.psi_f par)
        /\ forall (T_s : R) (u_s i_s : C) (w_m_meas : option R),
             returns (update self T_s u_s i_s w_m_meas)).
Proof.
  split.
  - intros Hz. unfold init. rewrite Hz, fdiv_zero. reflexivity.
  - intros Hnz. unfold init. rewrite fdiv_ok by assumption.
    cbn [bind fst snd]. eexists. split; [reflexivity |].
    repeat split.
    intros T_s u_s i_s w_m_meas. eexists.
    eapply ObserverFacts.update_sensorless; reflexivity.
Qed.

Lemma init_default_gain_witness :
  init (ModelPars.mk 1 0 1 1 3 1) 1 None true = Raise ZeroDivisionError
  /\ exists self,
       init Examples.par 1 None true = Ok self
       /\ theta_m self = 0 /\ w_m self = 0
       /\ psi_s self = RtoC (ModelPars.psi_f Examples.par)
       /\ forall (T_s : R) (u_s i_s : C) (w_m_meas : option R),
            returns (update self T_s u_s i_s w_m_meas).
Proof.
  split.
  - apply (proj1 (init_default_gain (ModelPars.mk 1 0 1 1 3 1) 1)).
    simpl. ring.
  - apply (proj2 (init_default_gain Examples.par 1)). simpl. lra.
Defined.

End ObserverMore.

(** ** The current controller *)

Module CurrentCtrlFacts.
Section WithCollaborators.
Context `{Collaborators}.

(** X12.  For a machine without saliency ([L_d = L_q]) the current
    controller is the complex PI controller on the currents scaled by the
    inductance: the transform to flux linkages is the multiplication by
    [L_d]. *)
Theorem output_non_salient (self : CurrentCtrl.t) (i_ref i : C) :
  CurrentCtrl.L_d self = CurrentCtrl.L_q self ->
  CurrentCtrl.output self i_ref i
  = (let r := ComplexPICtrl_output (CurrentCtrl.base self)
                (RtoC (CurrentCtrl.L_d self) * i_ref)%C
                (RtoC (CurrentCtrl.L_d self) * i)%C in
     (fst r, CurrentCtrl.mk (snd r) (CurrentCtrl.L_d self)
               (CurrentCtrl.L_q self))).
Proof.
  intros HL. unfold CurrentCtrl.output. rewrite <- HL.
  set (L := CurrentCtrl.L_d self).
  assert (Hflux : forall z : C,
             (RtoC (L * re z) + Ci * RtoC (L * im z))%C = (RtoC L * z)%C).
  { intros z. apply C_eq; simpl; ring. }
  rewrite !Hflux.
  destruct (ComplexPICtrl_output _ _ _) as [u b]. reflexivity.
Qed.

End WithCollaborators.

Lemma output_non_salient_witness :
  let self := @CurrentCtrl.init Examples.idle Examples.par 1 in
  @CurrentCtrl.output Examples.idle self (mkC 1 2) (mkC 3 4)
  = (let r := @ComplexPICtrl_output Examples.idle
                (@CurrentCtrl.base Examples.idle self)
                (RtoC (@CurrentCtrl.L_d Examples.idle self) * mkC 1 2)%C
                (RtoC (@CurrentCtrl.L_d Examples.idle self) * mkC 3 4)%C in
     (fst r, @CurrentCtrl.mk Examples.idle (snd r)
               (@CurrentCtrl.L_d Examples.idle self)
               (@CurrentCtrl.L_q Examples.idle self))).
Proof.
  intros self.
  exact (@output_non_salient Examples.idle self (mkC 1 2) (mkC 3 4) eq_refl).
Defined.

End CurrentCtrlFacts.

(** ** More on the control loop *)

Module VectorCtrlMore.
Import VectorCtrl.

Section WithCollaborators.
Context `{Collaborators}.

Ltac exec :=
  cbv beta iota zeta delta
    [run call bindM get put emit lift retM speed_ctrl_output
     current_ref_output current_ctrl_output save observer_update
     speed_ctrl_update current_ref_update current_ctrl_update clock_update
     pwm_call self trace app];
  cbn [fst snd speed_ctrl current_ref current_ctrl observer sensorless n_p
       T_s pwm clock data w_m_ref
       set_speed_ctrl set_current_ref set_current_ctrl set_observer set_pwm
       set_clock set_data].

(** X13.  What an invocation leaves alone and what it logs.  It never
    changes the sampling period, the mode, the pole-pair number or the
    speed reference function, and in sensored mode it never touches the
    observer.  When it returns, it returns the sampling period, has
    advanced the clock once and has appended one record to the data, whose
    speed and angle are those resolved on entry, whose time is the clock's
    on entry, and whose current is the measured one turned back by the
    angle.  When it raises, the clock and the modulator are as they
    were. *)
Theorem invocation_frame (s : t) (mdl : Drive.t) :
  (T_s (self (snd (run s mdl))) = T_s s
   /\ sensorless (self (snd (run s mdl))) = sensorless s
   /\ n_p (self (snd (run s mdl))) = n_p s
   /\ w_m_ref (self (snd (run s mdl))) = w_m_ref s
   /\ (sensorless s = false ->
       observer (self (snd (run s mdl))) = observer s))
  /\ match fst (run s mdl) with
     | Ok r =>
         fst r = T_s s
         /\ clock (self (snd (run s mdl))) = Clock_update (clock s) (T_s s)
         /\ exists d,
              data (self (snd (run s mdl))) = data s ++ [d]
              /\ get_states s mdl = Ok (Bunch.w_m d, Bunch.theta_m d)
              /\ Bunch.t_ d = Clock_t (clock s)
              /\ Bunch.w_m_ref d = w_m_ref s (Clock_t (clock s))
              /\ Bunch.u_dc d = Drive.meas_dc_voltage mdl
              /\ Bunch.u_s d = PWM_realized_voltage (pwm s)
              /\ Bunch.i_s d
                 = (Cexp_i (- Bunch.theta_m d)
                    * abc2complex (Drive.meas_currents mdl))%C
     | Raise _ =>
         clock (self (snd (run s mdl))) = clock s
         /\ pwm (self (snd (run s mdl))) = pwm s
     end.
Proof.
  exec.
  destruct (get_states s mdl) as [[w_m theta_m] | e] eqn:Est; exec.
  2:{ repeat split. }
  destruct (fdiv (w_m_ref s (Clock_t (clock s))) (IZR (n_p s)))
    as [w_M_ref | e]; exec.
  2:{ repeat split. }
  destruct (fdiv w_m (IZR (n_p s))) as [w_M | e]; exec.
  2:{ repeat split. }
  destruct (CurrentReference.output _ _ _ _)
    as [[[i_s_ref tau_lim] cr] | e]; exec.
  2:{ repeat split. }
  destruct (sensorless s) eqn:Hs; exec.
  - destruct (observer s) as [o |]; exec.
    + destruct (Observer.update _ _ _ _ _) as [o' | e]; exec.
      * repeat split; try assumption; try discriminate.
        eexists. repeat split.
      * repeat split; try assumption; discriminate.
    + repeat split; try assumption; discriminate.
  - repeat split; try assumption. eexists. repeat split.
Qed.

(** X14.  With a zero pole-pair number the invocation raises on the
    division of the speeds by it, before any call on a part: the object is
    left as it was and nothing is logged. *)
Theorem zero_pole_pairs_raise (s : t) (mdl : Drive.t) :
  n_p s = 0%Z ->
  returns (get_states s mdl) ->
  run s mdl = (Raise ZeroDivisionError, mkFrame s []).
Proof.
  intros Hn [[w_m theta_m] Hst]. exec. rewrite Hst. exec.
  rewrite Hn, fdiv_zero. reflexivity.
Qed.

(** One invocation of a runnable object returns, logs one record and
    leaves a runnable object. *)
Lemma run_runnable (s : t) (mdl : Drive.t) :
  VectorCtrlRuns.runnable s ->
  exists r f,
    run s mdl = (Ok r, f)
    /\ VectorCtrlRuns.runnable (self f)
    /\ length (data (self f)) = S (length (data s)).
Proof.
  intros [Hn [Hcr Hobs]]. unfold VectorCtrlRuns.runnable.
  pose proof (not_0_IZR _ Hn) as Hn'.
  exec. unfold get_states.
  destruct (sensorless s) eqn:Hs.
  - destruct (Hobs eq_refl) as [o [k [Ho [Hso Hk]]]].
    rewrite Ho. exec. rewrite !fdiv_ok by assumption. exec.
    destruct (CurrentReferenceFacts.output_returns (current_ref s)
                (fst (SpeedCtrl_output (speed_ctrl s)
                        (w_m_ref s (Clock_t (clock s)) / IZR (n_p s))
                        (Observer.w_m o / IZR (n_p s))))
                (Observer.w_m o) (Drive.meas_dc_voltage mdl)
                (or_introl Hcr)) as [[[i_s_ref tau_lim] cr] Eout].
    rewrite Eout.
    pose proof (CurrentReferenceFacts.output_same_object _ _ _ _ _ _ Eout).
    subst cr. exec. rewrite Ho. exec.
    rewrite (ObserverFacts.update_sensorless o k) by assumption.
    exec. do 2 eexists. split; [reflexivity |].
    exec.
    repeat split; try assumption.
    + intros _. do 2 eexists. repeat split; eassumption.
    + etransitivity; [apply (length_app (data s)) |]. cbn [length]. lia.
  - exec. rewrite !fdiv_ok by assumption. exec.
    destruct (CurrentReferenceFacts.output_returns (current_ref s)
                (fst (SpeedCtrl_output (speed_ctrl s)
                        (w_m_ref s (Clock_t (clock s)) / IZR (n_p s))
                        (IZR (n_p s) * Drive.meas_speed mdl / IZR (n_p s))))
                (IZR (n_p s) * Drive.meas_speed mdl)
                (Drive.meas_dc_voltage mdl)
                (or_introl Hcr)) as [[[i_s_ref tau_lim] cr] Eout].
    rewrite Eout.
    pose proof (CurrentReferenceFacts.output_same_object _ _ _ _ _ _ Eout).
    subst cr. exec. do 2 eexists. split; [reflexivity |].
    exec.
    repeat split; try assumption.
    + intros E. congruence.
    + etransitivity; [apply (length_app (data s)) |]. cbn [length]. lia.
Qed.

Lemma ticks_runnable (s : t) (mdls : list Drive.t) :
  VectorCtrlRuns.runnable s ->
  exists s',
    VectorCtrlRuns.ticks s mdls = Ok s'
    /\ VectorCtrlRuns.runnable s'
    /\ length (data s') = (length (data s) + length mdls)%nat.
Proof.
  revert s. induction mdls as [| mdl r IH]; intros s Hr.
  - exists s. cbn [VectorCtrlRuns.ticks length].
    split; [reflexivity |]. split; [assumption | lia].
  - destruct (run_runnable s mdl Hr) as [x [f [E [Hr' Hlen]]]].
    destruct (IH (self f) Hr') as [s' [Et [Hr'' Hlen']]].
    exists s'. cbn [VectorCtrlRuns.ticks]. rewrite E.
    split; [exact Et |]. split; [exact Hr'' |].
    rewrite Hlen', Hlen. cbn [length]. lia.
Qed.

(** X15.  The control system keeps running.  For a machine with pole pairs
    and inductances, the object the constructor builds completes any
    number of consecutive invocations, in either mode, and logs one record
    per invocation: the conditions under which an invocation returns are
    kept by every invocation. *)
Theorem constructed_controller_keeps_running (par : ModelPars.t)
    (ref : CurrentReferencePars.t) (T_s : R) (sensorless : bool) :
  ModelPars.n_p par <> 0%Z ->
  ModelPars.L_d par * ModelPars.L_q par <> 0 ->
  exists s,
    init par ref T_s sensorless = Ok s
    /\ forall mdls,
         exists s',
           VectorCtrlRuns.ticks s mdls = Ok s'
           /\ length (data s') = length mdls.
Proof.
  intros Hn HL.
  assert (Hinit : exists s,
             init par ref T_s sensorless = Ok s
             /\ VectorCtrlRuns.runnable s /\ data s = []).
  { unfold init. destruct sensorless.
    - unfold Observer.init. rewrite fdiv_ok by assumption.
      cbn [bind fst snd]. eexists. split; [reflexivity |].
      split; [| reflexivity].
      repeat split; try assumption.
      intros _. do 2 eexists. repeat split.
    - cbn [bind]. eexists. split; [reflexivity |].
      split; [| reflexivity].
      repeat split; try assumption. discriminate. }
  destruct Hinit as [s [E [Hr Hd]]]. exists s. split; [exact E |].
  intros mdls. destruct (ticks_runnable s mdls Hr) as [s' [Et [_ Hlen]]].
  exists s'. split; [exact Et |]. rewrite Hlen, Hd. reflexivity.
Qed.

(** X16.  The constructor raises in one case only: in sensorless mode,
    when the product of the inductances is zero and the default observer
    gain cannot be computed.  In sensored mode it builds no observer. *)
Theorem init_raises_iff (par : ModelPars.t) (ref : CurrentReferencePars.t)
    (T_s : R) (sensorless : bool) :
  (forall e,
      init par ref T_s sensorless = Raise e <->
      sensorless = true
      /\ ModelPars.L_d par * ModelPars.L_q par = 0
      /\ e = ZeroDivisionError)
  /\ (sensorless = false ->
      exists s, init par ref T_s sensorless = Ok s /\ observer s = None).
Proof.
  split.
  - intros e. unfold init. destruct sensorless.
    + unfold Observer.init.
      destruct (Req_dec_T (ModelPars.L_d par * ModelPars.L_q par) 0)
        as [Hz | Hnz].
      * rewrite Hz, fdiv_zero. cbn [bind]. split.
        -- intros E. inversion E. auto.
        -- intros [_ [_ ->]]. reflexivity.
      * rewrite fdiv_ok by assumption. cbn [bind]. split.
        -- discriminate.
        -- intros [_ [Hz _]]. contradiction.
    + cbn [bind]. split.
      * discriminate.
      * intros [Hs _]. discriminate.
  - intros ->. eexists. split; reflexivity.
Qed.

End WithCollaborators.

Lemma zero_pole_pairs_raise_witness :
  let s := @VectorCtrl.mk Examples.idle 1 false 0 Examples.at_rest
             (@CurrentCtrl.init Examples.idle Examples.par 1) None tt tt
             (fun _ => 0) tt [] in
  @run Examples.idle s Examples.drive
  = (Raise ZeroDivisionError, @mkFrame Examples.idle s []).
Proof.
  intros s. apply (@zero_pole_pairs_raise Examples.idle s Examples.drive).
  - reflexivity.
  - eexists. reflexivity.
Defined.

Lemma init_raises_iff_witness :
  exists s,
    @init Examples.idle Examples.par Examples.ref 1 false = Ok s
    /\ @observer Examples.idle s = None.
Proof.
  exact (proj2 (@init_raises_iff Examples.idle Examples.par Examples.ref 1
                  false) eq_refl).
Defined.

Lemma constructed_controller_keeps_running_witness :
  exists s,
    @init Examples.idle Examples.par Examples.ref 1 true = Ok s
    /\ forall mdls,
         exists s',
           @VectorCtrlRuns.ticks Examples.idle s mdls = Ok s'
           /\ length (@data Examples.idle s') = length mdls.
Proof.
  apply (@constructed_controller_keeps_running Examples.idle Examples.par
           Examples.ref 1 true).
  - simpl. lia.
  - simpl. lra.
Defined.

Lemma invocation_frame_witness :
  @observer Examples.idle
    (@self Examples.idle
       (snd (@run Examples.idle Examples.sensored Examples.drive)))
  = @observer Examples.idle Examples.sensored.
Proof.
  exact (proj2 (proj2 (proj2 (proj2 (proj1
    (@invocation_frame Examples.idle Examples.sensored Examples.drive)))))
    eq_refl).
Defined.

End VectorCtrlMore.

(** ** Construction of the reference parameters *)

Module CurrentReferenceParsFacts.
Section WithTables.

Variable mtpa_locus : ModelPars.t -> R -> R -> R -> R.
Variable limits_tau_M : ModelPars.t -> R -> xfloat -> R.
Variable limits_i_sd : ModelPars.t -> R -> R -> R.

(** X17.  The field-weakening gain of the reference parameters: a gain
    given by the caller is kept, whatever the nominal speed; without it the
    gain is [alpha_fw/(w_m_nom*L_d)], and the construction raises when the
    nominal speed is missing too, or when that product is zero.  The
    minimum flux defaults to the magnet flux. *)
Theorem post_init_gain (par : ModelPars.t) (i_s_max : R)
    (psi_s_min w_m_nom : option R) (alpha_fw k_u : R) :
  (forall k,
      exists r,
        CurrentReferenceParsInit.post_init mtpa_locus limits_tau_M
          limits_i_sd par i_s_max psi_s_min w_m_nom alpha_fw (Some k) k_u = Ok r
        /\ CurrentReferencePars.k_fw r = k
        /\ CurrentReferencePars.psi_s_min r
           = match psi_s_min with
             | Some p => p
             | None => ModelPars.psi_f par
             end)
  /\ CurrentReferenceParsInit.post_init mtpa_locus limits_tau_M limits_i_sd
       par i_s_max psi_s_min None alpha_fw None k_u = Raise TypeError
  /\ (forall w,
        w * ModelPars.L_d par = 0 ->
        CurrentReferenceParsInit.post_init mtpa_locus limits_tau_M
          limits_i_sd par i_s_max psi_s_min (Some w) alpha_fw None k_u
        = Raise ZeroDivisionError)
  /\ (forall w,
        w * ModelPars.L_d par <> 0 ->
        exists r,
          CurrentReferenceParsInit.post_init mtpa_locus limits_tau_M
          limits_i_sd par i_s_max psi_s_min (Some w) alpha_fw None k_u = Ok r
          /\ CurrentReferencePars.k_fw r = alpha_fw / (w * ModelPars.L_d par)).
Proof.
  unfold CurrentReferenceParsInit.post_init.
  split; [| split; [| split]].
  - intros k. cbn [bind]. eexists. repeat split.
  - reflexivity.
  - intros w Hz. rewrite Hz, fdiv_zero. reflexivity.
  - intros w Hnz. rewrite fdiv_ok by assumption. cbn [bind].
    eexists. split; reflexivity.
Qed.

End WithTables.

Lemma post_init_gain_witness :
  CurrentReferenceParsInit.post_init
    (fun _ _ _ _ => 0) (fun _ _ _ => 1) (fun _ _ _ => -1)
    (ModelPars.mk 1 0 1 1 3 1) 1 None (Some 1) 1 None 1
  = Raise ZeroDivisionError
  /\ exists r,
       CurrentReferenceParsInit.post_init
         (fun _ _ _ _ => 0) (fun _ _ _ => 1) (fun _ _ _ => -1)
         Examples.par 1 None (Some 2) 1 None 1 = Ok r
       /\ CurrentReferencePars.k_fw r
          = 1 / (2 * ModelPars.L_d Examples.par).
Proof.
  split.
  - apply (proj1 (proj2 (proj2
      (post_init_gain (fun _ _ _ _ => 0) (fun _ _ _ => 1) (fun _ _ _ => -1)
         (ModelPars.mk 1 0 1 1 3 1) 1 None (Some 1) 1 1)))).
    simpl. ring.
  - apply (proj2 (proj2 (proj2
      (post_init_gain (fun _ _ _ _ => 0) (fun _ _ _ => 1) (fun _ _ _ => -1)
         Examples.par 1 None (Some 2) 1 1)))).
    simpl. lra.
Defined.

End CurrentReferenceParsFacts.

(** ** The induction machine models *)

Module InductionMachineFacts.
Import InductionMachine.

Lemma Cdiv_real_ok (z : C) (x : R) :
  x <> 0 -> Cdiv_real z x = Ok (mkC (re z / x) (im z / x)).
Proof.
  intros Hx. unfold Cdiv_real.
  destruct (Req_dec_T x 0); [contradiction | reflexivity].
Qed.

(** [currents] where the stator inductance is defined and no divisor is
    zero. *)
Lemma currents_value (self : t) (psi_ss psi_rs : C) (L : R) :
  inductance_at self psi_ss = Some L ->
  L_ell self <> 0 ->
  L <> 0 ->
  currents self psi_ss psi_rs
  = Ok (mkC (re psi_ss / L - (re psi_rs - re psi_ss) / L_ell self)
            (im psi_ss / L - (im psi_rs - im psi_ss) / L_ell self),
        mkC ((re psi_rs - re psi_ss) / L_ell self)
            ((im psi_rs - im psi_ss) / L_ell self)).
Proof.
  intros HL Hell HL0. unfold inductance_at in HL. unfold currents.
  destruct (cls self); destruct (L_s self) as [L' | g];
    try discriminate; inversion HL; subst L; clear HL.
  - rewrite !Cdiv_real_ok by assumption. reflexivity.
  - cbn [bind]. rewrite !Cdiv_real_ok by assumption. reflexivity.
Qed.

(** X18.  [currents] solves the flux equations of the Γ model: the currents
    it returns give back the two fluxes, [psi_ss = L_s*(i_ss + i_rs)] and
    [psi_rs = psi_ss + L_ell*i_rs], for the base class and for the
    saturated one at its inductance [L_s(|psi_ss|)]. *)
Theorem currents_solve_flux_equations (self : t) (psi_ss psi_rs : C)
    (L : R) :
  inductance_at self psi_ss = Some L ->
  L_ell self <> 0 ->
  L <> 0 ->
  exists i_ss i_rs,
    currents self psi_ss psi_rs = Ok (i_ss, i_rs)
    /\ psi_ss = (RtoC L * (i_ss + i_rs))%C
    /\ psi_rs = (psi_ss + RtoC (L_ell self) * i_rs)%C.
Proof.
  intros HL Hell HL0. do 2 eexists.
  split; [apply (currents_value self psi_ss psi_rs L); assumption |].
  destruct psi_ss as [a b], psi_rs as [c d].
  split; apply C_eq; simpl; field;
    try assumption; try (split; assumption).
Qed.

Lemma currents_solve_flux_equations_witness :
  let self := init 2 1 1 1 (Lconst 2) in
  exists i_ss i_rs,
    currents self (mkC 1 0) (mkC 0 1) = Ok (i_ss, i_rs)
    /\ mkC 1 0 = (RtoC 2 * (i_ss + i_rs))%C
    /\ mkC 0 1 = (mkC 1 0 + RtoC (L_ell self) * i_rs)%C.
Proof.
  intros self.
  apply (currents_solve_flux_equations self (mkC 1 0) (mkC 0 1) 2).
  - reflexivity.
  - simpl. lra.
  - lra.
Defined.

Lemma magnetic_value (self : t) (psi_ss psi_rs : C) (L : R) :
  inductance_at self psi_ss = Some L ->
  L_ell self <> 0 ->
  L <> 0 ->
  exists i_ss i_rs,
    currents self psi_ss psi_rs = Ok (i_ss, i_rs)
    /\ magnetic self psi_ss psi_rs
       = Ok (i_ss, i_rs,
             1.5 * IZR (n_p self)
             * ((re psi_rs * im psi_ss - im psi_rs * re psi_ss)
                / L_ell self))
    /\ re i_ss = re psi_ss / L - re i_rs
    /\ im i_ss = im psi_ss / L - im i_rs
    /\ re i_rs = (re psi_rs - re psi_ss) / L_ell self
    /\ im i_rs = (im psi_rs - im psi_ss) / L_ell self.
Proof.
  intros HL Hell HL0. do 2 eexists.
  split; [apply (currents_value self psi_ss psi_rs L); assumption |].
  split.
  - unfold magnetic.
    rewrite (currents_value self psi_ss psi_rs L) by assumption.
    cbn [bind]. f_equal. f_equal. f_equal.
    simpl. field. try assumption; try (split; assumption).
  - repeat split.
Qed.

(** X19.  The torque is the cross product of the two fluxes over the
    leakage inductance, [1.5*n_p*Im(psi_ss*conj(psi_rs))/L_ell]: it does
    not depend on the stator inductance, so a saturated machine and a
    linear one give the same torque at the same fluxes. *)
Theorem torque_from_fluxes (self : t) (psi_ss psi_rs : C) (L : R) :
  inductance_at self psi_ss = Some L ->
  L_ell self <> 0 ->
  L <> 0 ->
  exists i_ss i_rs,
    magnetic self psi_ss psi_rs
    = Ok (i_ss, i_rs,
          1.5 * IZR (n_p self) * (im (psi_ss * Cconj psi_rs)%C / L_ell self)).
Proof.
  intros HL Hell HL0.
  destruct (magnetic_value self psi_ss psi_rs L HL Hell HL0)
    as [i_ss [i_rs [_ [Hm _]]]].
  exists i_ss, i_rs. rewrite Hm. f_equal. f_equal. f_equal. f_equal.
  simpl. ring.
Qed.

Lemma torque_from_fluxes_witness :
  let self := init_saturated 2 1 1 1 (Lfun (fun psi => 1 + psi)) in
  exists i_ss i_rs,
    magnetic self (mkC 1 0) (mkC 0 1)
    = Ok (i_ss, i_rs,
          1.5 * IZR (n_p self)
          * (im (mkC 1 0 * Cconj (mkC 0 1))%C / L_ell self)).
Proof.
  intros self.
  apply (torque_from_fluxes self (mkC 1 0) (mkC 0 1)
           (1 + Cabs (mkC 1 0))).
  - reflexivity.
  - simpl. lra.
  - unfold Cabs. pose proof (sqrt_pos (re (mkC 1 0) * re (mkC 1 0)
                                       + im (mkC 1 0) * im (mkC 1 0))).
    lra.
Defined.

(** X20.  The power balance of the machine model.  For the derivatives, the
    current and the torque that [f] returns, the electrical input power
    [1.5*Re(u_ss*conj(i_ss))] is the sum of the two resistive losses, the
    mechanical power [tau_M*w_M] and the power stored in the fluxes. *)
Theorem power_balance (self : t) (psi_ss psi_rs u_ss : C) (w_M L : R) :
  inductance_at self psi_ss = Some L ->
  L_ell self <> 0 ->
  L <> 0 ->
  exists dpsi_ss dpsi_rs i_ss i_rs tau_M,
    magnetic self psi_ss psi_rs = Ok (i_ss, i_rs, tau_M)
    /\ f self psi_ss psi_rs u_ss w_M = Ok ([dpsi_ss; dpsi_rs], i_ss, tau_M)
    /\ 1.5 * re (u_ss * Cconj i_ss)%C
       = 1.5 * R_s self * (re i_ss * re i_ss + im i_ss * im i_ss)
         + 1.5 * R_r self * (re i_rs * re i_rs + im i_rs * im i_rs)
         + tau_M * w_M
         + 1.5 * re (dpsi_ss * Cconj i_ss + dpsi_rs * Cconj i_rs)%C.
Proof.
  intros HL Hell HL0.
  destruct (magnetic_value self psi_ss psi_rs L HL Hell HL0)
    as [i_ss [i_rs [_ [Hm [H1 [H2 [H3 H4]]]]]]].
  do 5 eexists. split; [exact Hm |].
  split.
  - unfold f. rewrite Hm. cbn [bind]. reflexivity.
  - destruct i_ss as [a b], i_rs as [c d], psi_ss as [ps1 ps2],
      psi_rs as [pr1 pr2], u_ss as [u1 u2].
    cbn [re im] in *. simpl.
    assert (E1 : pr1 = ps1 + L_ell self * c) by (rewrite H3; field; assumption).
    assert (E2 : pr2 = ps2 + L_ell self * d) by (rewrite H4; field; assumption).
    rewrite three_halves.
    replace ((pr1 * ps2 - pr2 * ps1) / L_ell self) with (c * ps2 - d * ps1)
      by (rewrite E1, E2; field; assumption).
    rewrite E1, E2. ring.
Qed.

Lemma power_balance_witness :
  let self := init 2 1 1 1 (Lconst 2) in
  exists dpsi_ss dpsi_rs i_ss i_rs tau_M,
    magnetic self (mkC 1 0) (mkC 0 1) = Ok (i_ss, i_rs, tau_M)
    /\ f self (mkC 1 0) (mkC 0 1) (mkC 3 4) 5
       = Ok ([dpsi_ss; dpsi_rs], i_ss, tau_M)
    /\ 1.5 * re (mkC 3 4 * Cconj i_ss)%C
       = 1.5 * R_s self * (re i_ss * re i_ss + im i_ss * im i_ss)
         + 1.5 * R_r self * (re i_rs * re i_rs + im i_rs * im i_rs)
         + tau_M * 5
         + 1.5 * re (dpsi_ss * Cconj i_ss + dpsi_rs * Cconj i_rs)%C.
Proof.
  intros self.
  apply (power_balance self (mkC 1 0) (mkC 0 1) (mkC 3 4) 5 2).
  - reflexivity.
  - simpl. lra.
  - lra.
Defined.

(** X21.  The two machine classes and their inductance.  A saturated
    machine whose inductance function is constant behaves as the machine of
    the base class with that inductance.  Given the wrong kind of
    inductance, [currents] raises: the base class cannot divide by a
    function, the saturated class cannot call a number. *)
Theorem classes_and_inductance (np : Z) (Rs Rr Le L : R)
    (g : R -> R) (psi_ss psi_rs u_ss : C) (w_M : R) :
  f (init_saturated np Rs Rr Le (Lfun (fun _ => L)))
    psi_ss psi_rs u_ss w_M
  = f (init np Rs Rr Le (Lconst L)) psi_ss psi_rs u_ss w_M
  /\ currents (init_saturated np Rs Rr Le (Lconst L)) psi_ss psi_rs
     = Raise TypeError
  /\ currents (init np Rs Rr Le (Lfun g)) psi_ss psi_rs
     = (if Req_dec_T Le 0 then Raise ZeroDivisionError
        else Raise TypeError).
Proof.
  split; [| split].
  - unfold f, magnetic, currents. cbn [cls L_s init init_saturated bind].
    reflexivity.
  - reflexivity.
  - unfold currents. cbn [cls L_s L_ell init]. unfold Cdiv_real.
    destruct (Req_dec_T Le 0); reflexivity.
Qed.

(** X22.  The inverse-Γ constructor.  It raises when the magnetizing
    inductance or the sum of the two inductances is zero.  Otherwise it
    builds a machine of the base class whose Γ parameters give back the
    inverse-Γ ones: with the coupling factor [gamma = L_s/(L_s + L_ell)],
    which is [L_M/(L_M + L_sgm)], the products [gamma*L_s],
    [gamma*L_ell] and [gamma^2*R_r] are [L_M], [L_sgm] and [R_R]. *)
Theorem init_inv_gamma_round_trip (n_p : Z) (R_s R_R L_sgm L_M : R) :
  (L_M = 0 \/ L_M + L_sgm = 0 ->
   init_inv_gamma n_p R_s R_R L_sgm L_M = Raise ZeroDivisionError)
  /\ (L_M <> 0 -> L_M + L_sgm <> 0 ->
      exists self L,
        init_inv_gamma n_p R_s R_R L_sgm L_M = Ok self
        /\ cls self = Gamma
        /\ L_s self = Lconst L
        /\ psi_ss0 self = RtoC 0 /\ psi_rs0 self = RtoC 0
        /\ L / (L + L_ell self) = L_M / (L_M + L_sgm)
        /\ L / (L + L_ell self) * L = L_M
        /\ L / (L + L_ell self) * L_ell self = L_sgm
        /\ (L / (L + L_ell self)) ^ 2 * R_r self = R_R).
Proof.
  split.
  - intros Hz. unfold init_inv_gamma.
    destruct (Req_dec_T (L_M + L_sgm) 0) as [Hs | Hs].
    + rewrite Hs, fdiv_zero. reflexivity.
    + destruct Hz as [Hz | Hz]; [| contradiction].
      rewrite fdiv_ok by assumption. cbn [bind].
      subst L_M. replace ((0 / (0 + L_sgm)) ^ 2) with 0
        by (unfold Rdiv; ring).
      rewrite fdiv_zero. reflexivity.
  - intros HM Hs. unfold init_inv_gamma.
    assert (Hg : L_M / (L_M + L_sgm) <> 0).
    { unfold Rdiv. apply Rmult_integral_contrapositive_currified;
        [assumption | apply Rinv_neq_0_compat; assumption]. }
    assert (Hg2 : (L_M / (L_M + L_sgm)) ^ 2 <> 0)
      by (apply pow_nonzero; assumption).
    rewrite (fdiv_ok L_M) by assumption. cbn [bind].
    rewrite (fdiv_ok R_R) by assumption. cbn [bind].
    rewrite (fdiv_ok L_sgm) by assumption. cbn [bind].
    do 2 eexists. split; [reflexivity |].
    cbn [cls L_s L_ell R_r psi_ss0 psi_rs0 set_initial init].
    repeat split; field; repeat split; try assumption.
    all: intros E; apply Hs; nra.
Qed.

Lemma init_inv_gamma_round_trip_witness :
  init_inv_gamma 2 1 1 1 0 = Raise ZeroDivisionError
  /\ exists self L,
       init_inv_gamma 2 1 1 1 3 = Ok self
       /\ cls self = Gamma
       /\ L_s self = Lconst L
       /\ psi_ss0 self = RtoC 0 /\ psi_rs0 self = RtoC 0
       /\ L / (L + L_ell self) = 3 / (3 + 1)
       /\ L / (L + L_ell self) * L = 3
       /\ L / (L + L_ell self) * L_ell self = 1
       /\ (L / (L + L_ell self)) ^ 2 * R_r self = 1.
Proof.
  split.
  - apply (proj1 (init_inv_gamma_round_trip 2 1 1 1 0)). left. reflexivity.
  - apply (proj2 (init_inv_gamma_round_trip 2 1 1 1 3)); lra.
Defined.

End InductionMachineFacts.

(** ** The drive model *)

Module DriveModelFacts.
Section WithConverter.

Variables Converter Q : Type.


Lemma save_save (self : DriveModel.t Converter Q) (a b : Solution.t Q) :
  DriveModel.save Converter Q (DriveModel.save Converter Q self a) b
  = DriveModel.save Converter Q self (DriveModel.concat Q a b).
Proof.
  unfold DriveModel.save, DriveModel.concat.
  cbn [DriveModel.data DriveModel.machine DriveModel.mechanics
       DriveModel.converter DriveModel.t0
       DriveModel.t_ DriveModel.q DriveModel.psi_ss DriveModel.psi_rs
       DriveModel.theta_M DriveModel.w_M
       Solution.t_ Solution.q Solution.y0 Solution.y1 Solution.y2
       Solution.y3].
  rewrite !map_app, !app_assoc. reflexivity.
Qed.

(** X24.  Saving composes: saving two solutions one after the other is
    saving their concatenation, and saving never changes what was saved
    before, the earlier times remain the first entries. *)
Theorem save_composes (self : DriveModel.t Converter Q)
    (a b : Solution.t Q) :
  DriveModel.save Converter Q (DriveModel.save Converter Q self a) b
  = DriveModel.save Converter Q self (DriveModel.concat Q a b)
  /\ firstn (length (DriveModel.t_ Q (DriveModel.data Converter Q self)))
       (DriveModel.t_ Q
          (DriveModel.data Converter Q (DriveModel.save Converter Q self a)))
     = DriveModel.t_ Q (DriveModel.data Converter Q self).
Proof.
  split; [apply save_save |].
  unfold DriveModel.save. cbn [DriveModel.data DriveModel.t_].
  rewrite firstn_app, Nat.sub_diag, firstn_all. cbn [firstn].
  apply app_nil_r.
Qed.

Lemma save_aligned (self : DriveModel.t Converter Q) (sol : Solution.t Q) :
  DriveModel.aligned Q (DriveModel.data Converter Q self) ->
  DriveModel.well_formed Q sol ->
  DriveModel.aligned Q
    (DriveModel.data Converter Q (DriveModel.save Converter Q self sol)).
Proof.
  intros [A1 [A2 [A3 [A4 A5]]]] [W1 [W2 [W3 [W4 W5]]]].
  unfold DriveModel.aligned, DriveModel.save.
  cbn [DriveModel.data DriveModel.t_ DriveModel.q DriveModel.psi_ss
       DriveModel.psi_rs DriveModel.theta_M DriveModel.w_M].
  rewrite !length_app, !length_map. repeat split; congruence.
Qed.

(** X25.  The data of a drive stay aligned: starting from the constructor,
    after saving any sequence of solutions whose rows have one entry per
    time, the six lists of the data have the same length, the total number
    of times saved. *)
Theorem saved_data_aligned (machine : InductionMachine.t)
    (mechanics : Mechanics.t) (converter : Converter)
    (sols : list (Solution.t Q)) :
  Forall (DriveModel.well_formed Q) sols ->
  let self :=
    fold_left (DriveModel.save Converter Q) sols
      (DriveModel.init Converter Q machine mechanics converter) in
  DriveModel.aligned Q (DriveModel.data Converter Q self)
  /\ length (DriveModel.t_ Q (DriveModel.data Converter Q self))
     = list_sum (map (fun sol => length (Solution.t_ sol)) sols).
Proof.
  intros Hall. cbn zeta.
  assert (Hgen : forall self0 : DriveModel.t Converter Q,
             DriveModel.aligned Q (DriveModel.data Converter Q self0) ->
             DriveModel.aligned Q
               (DriveModel.data Converter Q
                  (fold_left (DriveModel.save Converter Q) sols self0))
             /\ length (DriveModel.t_ Q
                          (DriveModel.data Converter Q
                             (fold_left (DriveModel.save Converter Q)
                                sols self0)))
                = (length (DriveModel.t_ Q
                             (DriveModel.data Converter Q self0))
                   + list_sum
                       (map (fun sol => length (Solution.t_ sol)) sols))%nat).
  { induction Hall as [| sol r Hsol Hr IH]; intros self0 Ha.
    - cbn [fold_left map list_sum fold_right]. split; [assumption |].
      rewrite Nat.add_0_r. reflexivity.
    - cbn [fold_left map].
      change (list_sum (length (Solution.t_ sol)
                        :: map (fun sol => length (Solution.t_ sol)) r))
        with (length (Solution.t_ sol)
              + list_sum (map (fun sol => length (Solution.t_ sol)) r))%nat.
      destruct (IH (DriveModel.save Converter Q self0 sol)
                  (save_aligned self0 sol Ha Hsol)) as [IH1 IH2].
      split; [exact IH1 |]. rewrite IH2.
      unfold DriveModel.save at 1. cbn [DriveModel.data DriveModel.t_].
      rewrite length_app. lia. }
  destruct (Hgen (DriveModel.init Converter Q machine mechanics converter))
    as [H1 H2].
  - repeat split.
  - split; [exact H1 |]. rewrite H2. reflexivity.
Qed.

End WithConverter.

Lemma saved_data_aligned_witness :
  let sol := Solution.mk [0; 1] [tt; tt] [RtoC 0; RtoC 1] [RtoC 0; RtoC 1]
               [RtoC 0; RtoC 1] [RtoC 0; RtoC 1] in
  let self :=
    fold_left (DriveModel.save unit unit) [sol; sol]
      (DriveModel.init unit unit (InductionMachine.init 2 1 1 1 (Lconst 2))
         (Mechanics.mk 0 0) tt) in
  DriveModel.aligned unit (DriveModel.data unit unit self)
  /\ length (DriveModel.t_ unit (DriveModel.data unit unit self))
     = list_sum (map (fun sol => length (Solution.t_ sol)) [sol; sol]).
Proof.
  intros sol.
  apply (saved_data_aligned unit unit
           (InductionMachine.init 2 1 1 1 (Lconst 2)) (Mechanics.mk 0 0) tt
           [sol; sol]).
  assert (Hw : DriveModel.well_formed unit sol) by (repeat split).
  apply Forall_cons; [exact Hw |].
  apply Forall_cons; [exact Hw | apply Forall_nil].
Defined.

End DriveModelFacts.
